(** * process_transactions.py: the transaction pipeline of [main]

    A shallow embedding of [src/process_transactions.py].  The script reads
    [sample_data.csv] into a pandas frame, resolves the [date] column,
    drops incomplete rows, signs the amounts, adds calendar columns, sorts
    by date, accumulates a running balance, aggregates per month and writes
    two CSV files.

    What is modelled, and how:
    - a CSV row is a [RawRow]: the three cells [date], [amount], [type] as
      [read_csv] delivers them, [None] standing for a missing cell (NaN).
      A file that cannot be read, lacks one of the three columns, or has a
      non-numeric amount or a non-text type makes the script raise into
      the handler of line 143; such inputs are not [list RawRow] values
      (a [type] column without any text, in a file with data rows, is read
      as a numeric column and is one of them);
    - amounts are exact integers ([Z]): the arithmetic of the script
      ([abs], negation, [cumsum], [sum]) is modelled without rounding and
      without overflow;
    - [pd.to_datetime] is library code (pandas 2: the format is inferred
      from the first non-null text and applied to the whole column).  It is
      modelled on two textual layouts, [YYYY-MM-DD] and [A/B/YYYY], every
      other text being unparseable (NaT under [errors='coerce']); a date is
      a calendar day, without time of day;
    - [DataFrame.sort_values] with its default [kind='quicksort'] is
      numpy's index introsort [aquicksort], modelled step by step;
    - printing, directory creation and CSV formatting are left out: the
      result of a run is an [Outcome], either the two tables handed to
      [to_csv] or an abort that writes nothing. *)

From stdpp Require Import list strings sorting.
From Stdlib Require Import ZArith Ascii.

Local Open Scope Z_scope.

(** ** Data model *)

(** A resolved calendar date (a [datetime64] value at day resolution). *)
Record Timestamp := mkTs { ts_year : Z; ts_month : Z; ts_day : Z }.

Global Instance Timestamp_eq_dec : EqDecision Timestamp.
Proof. solve_decision. Defined.

(** One data row of the CSV file as read by [pd.read_csv] (line 9). *)
Record RawRow := mkRaw {
  raw_date : option string;
  raw_amount : option Z;
  raw_type : option string
}.

(** The [date] column is either an [object] column of texts (as read) or a
    [datetime64] column (after conversion); [None] is NaN, respectively NaT. *)
Inductive DateColumn :=
  | ObjectCol (cells : list (option string))
  | DatetimeCol (cells : list (option Timestamp)).

(** [pd.api.types.is_datetime64_any_dtype] on the [date] column (line 76). *)
Definition is_datetime64_any_dtype (c : DateColumn) : bool :=
  match c with
  | ObjectCol _ => false
  | DatetimeCol _ => true
  end.

(** ** Text helpers: [str.strip] and [str.title] (line 68) *)

Module Py.

Definition code (c : ascii) : Z := Z.of_nat (nat_of_ascii c).

(** [str.isspace] on the ASCII range: TAB..CR, FS..US and the blank. *)
Definition isspace (c : ascii) : bool :=
  ((9 <=? code c) && (code c <=? 13)) || ((28 <=? code c) && (code c <=? 32)).

Definition isupper (c : ascii) : bool := (65 <=? code c) && (code c <=? 90).
Definition islower (c : ascii) : bool := (97 <=? code c) && (code c <=? 122).
Definition isdigit (c : ascii) : bool := (48 <=? code c) && (code c <=? 57).

Definition upper (c : ascii) : ascii :=
  if islower c then ascii_of_nat (nat_of_ascii c - 32) else c.
Definition lower (c : ascii) : ascii :=
  if isupper c then ascii_of_nat (nat_of_ascii c + 32) else c.

Fixpoint lstrip (s : string) : string :=
  match s with
  | EmptyString => EmptyString
  | String c s' => if isspace c then lstrip s' else s
  end.

Definition rstrip (s : string) : string := String.rev (lstrip (String.rev s)).

Definition strip (s : string) : string := rstrip (lstrip s).

(** [str.title]: a cased character is upper-cased when the character
    before it is not cased, and lower-cased otherwise. *)
Fixpoint title_from (previous_is_cased : bool) (s : string) : string :=
  match s with
  | EmptyString => EmptyString
  | String c s' =>
      if islower c then
        String (if previous_is_cased then c else upper c) (title_from true s')
      else if isupper c then
        String (if previous_is_cased then lower c else c) (title_from true s')
      else String c (title_from false s')
  end.

Definition title (s : string) : string := title_from false s.

(** [str.split(sep)] for a one-character separator. *)
Fixpoint split (sep : ascii) (s : string) : list string :=
  match s with
  | EmptyString => [EmptyString]
  | String c s' =>
      if decide (c = sep) then EmptyString :: split sep s'
      else match split sep s' with
           | f :: fs => String c f :: fs
           | [] => [String c EmptyString]
           end
  end.

Definition digit (c : ascii) : option Z :=
  if isdigit c then Some (code c - 48) else None.

Fixpoint digits_from (acc : Z) (s : string) : option Z :=
  match s with
  | EmptyString => Some acc
  | String c s' =>
      match digit c with
      | Some d => digits_from (10 * acc + d) s'
      | None => None
      end
  end.

(** A decimal field of between [lo] and [hi] digits. *)
Definition number (lo hi : nat) (s : string) : option Z :=
  if bool_decide (lo ≤ String.length s ≤ hi)%nat then digits_from 0 s else None.

End Py.

(** ** Date parsing: [pd.to_datetime] (lines 22, 30, 44, 54, 79) *)

Definition is_leap (y : Z) : bool :=
  ((y mod 4 =? 0) && negb (y mod 100 =? 0)) || (y mod 400 =? 0).

Definition days_in_month (y m : Z) : Z :=
  if m =? 2 then (if is_leap y then 29 else 28)
  else if (m =? 4) || (m =? 6) || (m =? 9) || (m =? 11) then 30
  else 31.

Definition valid_date (y m d : Z) : bool :=
  (1 <=? m) && (m <=? 12) && (1 <=? d) && (d <=? days_in_month y m).

(** The calendar date [y]-[m]-[d] if there is one. *)
Definition make_date (y m d : Z) : option Timestamp :=
  if valid_date y m d then Some (mkTs y m d) else None.

(** The two textual layouts of the model. *)
Inductive DateText :=
  | IsoText (y m d : Z)      (* YYYY-MM-DD *)
  | SlashText (a b y : Z).   (* A/B/YYYY   *)

Definition read_text (s : string) : option DateText :=
  match Py.split "-" s with
  | [y; m; d] =>
      match Py.number 4 4 y, Py.number 1 2 m, Py.number 1 2 d with
      | Some y, Some m, Some d => Some (IsoText y m d)
      | _, _, _ => None
      end
  | _ =>
      match Py.split "/" s with
      | [a; b; y] =>
          match Py.number 1 2 a, Py.number 1 2 b, Py.number 4 4 y with
          | Some a, Some b, Some y => Some (SlashText a b y)
          | _, _, _ => None
          end
      | _ => None
      end
  end.

(** A [strptime] format as [guess_datetime_format] infers it. *)
Inductive DateFormat :=
  | Fmt_Ymd    (* %Y-%m-%d *)
  | Fmt_mdY    (* %m/%d/%Y *)
  | Fmt_dmY.   (* %d/%m/%Y *)

(** [guess_datetime_format(s, dayfirst)]: the text is parsed once, with the
    day/month preference, and the format that prints it back is returned.
    Without [dayfirst] a slash date is month first unless its first field
    cannot be a month. *)
Definition guess_datetime_format (dayfirst : bool) (s : string) : option DateFormat :=
  match read_text s with
  | Some (IsoText y m d) => if valid_date y m d then Some Fmt_Ymd else None
  | Some (SlashText a b y) =>
      if dayfirst then
        if valid_date y b a then Some Fmt_dmY
        else if valid_date y a b then Some Fmt_mdY
        else None
      else
        if valid_date y a b then Some Fmt_mdY
        else if valid_date y b a then Some Fmt_dmY
        else None
  | None => None
  end.

(** Parsing one text against a given format ([exact=True]). *)
Definition strptime (f : DateFormat) (s : string) : option Timestamp :=
  match f, read_text s with
  | Fmt_Ymd, Some (IsoText y m d) => make_date y m d
  | Fmt_mdY, Some (SlashText a b y) => make_date y a b
  | Fmt_dmY, Some (SlashText a b y) => make_date y b a
  | _, _ => None
  end.

(** Parsing one text on its own ([format='mixed'], or no format could be
    inferred).  A slash date is read month first and the two fields are
    swapped when the first cannot be a month, or when [dayfirst] is set and
    the second can be one. *)
Definition parse_datetime_string (dayfirst : bool) (s : string) : option Timestamp :=
  match read_text s with
  | Some (IsoText y m d) => make_date y m d
  | Some (SlashText a b y) =>
      let month := a in
      let day := b in
      if (1 <=? month) && (month <=? 31) && (1 <=? day) && (day <=? 31)
         && ((month <=? 12) || (day <=? 12)) then
        if (12 <? month) || ((day <=? 12) && dayfirst)
        then make_date y day month
        else make_date y month day
      else None
  | None => None
  end.

(** The [format] argument of [to_datetime]. *)
Inductive FormatArg :=
  | FormatNone     (* no [format]: inferred from the first non-null text *)
  | FormatMixed.   (* [format='mixed']: every text parsed on its own *)

Fixpoint first_non_null (cells : list (option string)) : option string :=
  match cells with
  | [] => None
  | Some s :: _ => Some s
  | None :: cells => first_non_null cells
  end.

(** [pd.to_datetime(col, format=..., dayfirst=..., errors='coerce')].  A
    column that is already [datetime64] is returned as it is; texts are
    parsed, a text that does not parse becoming NaT.  The result always has
    a [datetime64] dtype, so it is given as the list of its cells. *)
Definition to_datetime (format : FormatArg) (dayfirst : bool) (arg : DateColumn)
  : list (option Timestamp) :=
  match arg with
  | DatetimeCol cells => cells
  | ObjectCol cells =>
      let each := fmap (M := list) (λ c : option string, c ≫= parse_datetime_string dayfirst) in
      match format with
      | FormatMixed => each cells
      | FormatNone =>
          match first_non_null cells ≫= guess_datetime_format dayfirst with
          | Some f => (λ c : option string, c ≫= strptime f) <$> cells
          | None => each cells
          end
      end
  end.

(** ** Sorting: numpy's [aquicksort] (line 97)

    [df.sort_values('date')] calls [nargsort] with the default
    [kind='quicksort']: the non-null keys are sorted indirectly by numpy's
    [aquicksort_<tag>] (npysort/quicksort.cpp), an introsort on the index
    array [tosort] over the fixed key array [v]: median-of-three
    partitioning while a range has more than [SMALL_QUICKSORT] elements,
    insertion sort below that, and [aheapsort_] for a range whose depth
    budget is used up.  Indices are natural numbers; [v[tosort[i]]] is a
    partial lookup and a comparison on a missing key is false. *)

Module Npy.
Section Argsort.
Context {K : Type} (less : K → K → bool) (v : list K).

Definition SMALL_QUICKSORT : nat := 16.

(** [Tag::less(v[x], v[y])] for two entries [x], [y] of the index array. *)
Definition less_val (x y : nat) : bool :=
  match v !! x, v !! y with
  | Some kx, Some ky => less kx ky
  | _, _ => false
  end.

(** [Tag::less(v[*pi], v[*pj])] for two positions of the index array. *)
Definition less_at (a : list nat) (i j : nat) : bool :=
  match a !! i, a !! j with
  | Some x, Some y => less_val x y
  | _, _ => false
  end.

(** [INTP_SWAP( *pi, *pj)] *)
Definition swap (a : list nat) (i j : nat) : list nat :=
  match a !! i, a !! j with
  | Some x, Some y => <[i := y]> (<[j := x]> a)
  | _, _ => a
  end.

(** [npy_get_msb]: the position of the highest set bit. *)
Definition npy_get_msb (num : nat) : Z := Z.log2 (Z.of_nat num).

(** *** Insertion sort of the range [pl .. pr] *)

(** [while (pj > pl && less(vp, v[*pk])) { *pj-- = *pk--; }  *pj = vi;]
    with [pk = pj - 1] throughout. *)
Fixpoint insert_shift (pl vi : nat) (a : list nat) (pj : nat) : list nat :=
  match pj with
  | O => <[pj := vi]> a
  | S pk =>
      match a !! pk with
      | Some x =>
          if bool_decide (pl < pj)%nat && less_val vi x
          then insert_shift pl vi (<[pj := x]> a) pk
          else <[pj := vi]> a
      | None => <[pj := vi]> a
      end
  end.

(** [for (pi = pl + 1; pi <= pr; ++pi) { vi = *pi; ... }] *)
Definition insertion_sort (a : list nat) (pl pr : nat) : list nat :=
  foldl (λ a pi, match a !! pi with
                 | Some vi => insert_shift pl vi a pi
                 | None => a
                 end)
        a (seq (S pl) (pr - pl)).

(** *** Heap sort of the [n] entries from position [base] on

    The C code indexes the heap from 1 through [a = tosort - 1]; heap
    slot [k] is position [base + k - 1] of the index array. *)
Definition slot (base k : nat) : nat := (base + k - 1)%nat.

(** The sift-down loop
    [for (i, j; j <= n;) { if (j < n && less(v[a[j]], v[a[j+1]])) j += 1;
       if (less(v[tmp], v[a[j]])) { a[i] = a[j]; i = j; j += j; } else break; }
     a[i] = tmp;] *)
Fixpoint sift (fuel base n tmp : nat) (a : list nat) (i j : nat) : list nat :=
  match fuel with
  | O => <[slot base i := tmp]> a
  | S fuel' =>
      if bool_decide (j ≤ n)%nat then
        let j := if bool_decide (j < n)%nat
                    && less_at a (slot base j) (slot base (j + 1))
                 then (j + 1)%nat else j in
        match a !! slot base j with
        | Some x =>
            if less_val tmp x
            then sift fuel' base n tmp (<[slot base i := x]> a) j (j + j)%nat
            else <[slot base i := tmp]> a
        | None => <[slot base i := tmp]> a
        end
      else <[slot base i := tmp]> a
  end.

(** [for (l = n >> 1; l > 0; --l) { tmp = a[l]; sift from l }] *)
Fixpoint heapify (base n : nat) (a : list nat) (l : nat) : list nat :=
  match l with
  | O => a
  | S l' =>
      let a := match a !! slot base l with
               | Some tmp => sift n base n tmp a l (l + l)%nat
               | None => a
               end in
      heapify base n a l'
  end.

(** [for (; n > 1;) { tmp = a[n]; a[n] = a[1]; n -= 1; sift from 1 }] *)
Fixpoint extract (base : nat) (a : list nat) (n : nat) : list nat :=
  match n with
  | O => a
  | S n' =>
      if bool_decide (1 < n)%nat then
        match a !! slot base n, a !! slot base 1 with
        | Some tmp, Some top =>
            extract base (sift n' base n' tmp (<[slot base n := top]> a) 1 2) n'
        | _, _ => a
        end
      else a
  end.

Definition aheapsort (a : list nat) (base n : nat) : list nat :=
  extract base (heapify base n a (n / 2)%nat) n.

(** *** Partitioning of the range [pl .. pr] *)

(** The three conditional swaps that order [*pl], [*pm], [*pr]. *)
Definition median3 (a : list nat) (pl pm pr : nat) : list nat :=
  let a := if less_at a pm pl then swap a pm pl else a in
  let a := if less_at a pr pm then swap a pr pm else a in
  if less_at a pm pl then swap a pm pl else a.

(** [do { ++pi; } while (less(v[*pi], vp));] *)
Fixpoint scan_up (fuel vp : nat) (a : list nat) (pi : nat) : nat :=
  match fuel with
  | O => S pi
  | S fuel' =>
      match a !! S pi with
      | Some x => if less_val x vp then scan_up fuel' vp a (S pi) else S pi
      | None => S pi
      end
  end.

(** [do { --pj; } while (less(vp, v[*pj]));] *)
Fixpoint scan_down (vp : nat) (a : list nat) (pj : nat) : nat :=
  match pj with
  | O => O
  | S pj' =>
      match a !! pj' with
      | Some x => if less_val vp x then scan_down vp a pj' else pj'
      | None => pj'
      end
  end.

(** [for (;;) { scan up; scan down; if (pi >= pj) break; INTP_SWAP( *pi, *pj); }] *)
Fixpoint partition_loop (fuel vp : nat) (a : list nat) (pi pj : nat) : list nat * nat :=
  let pi := scan_up (length a) vp a pi in
  let pj := scan_down vp a pj in
  if bool_decide (pj ≤ pi)%nat then (a, pi)
  else match fuel with
       | O => (a, pi)
       | S fuel' => partition_loop fuel' vp (swap a pi pj) pi pj
       end.

(** One partitioning step; returns the array and the final pivot
    position [pi]. *)
Definition partition (a : list nat) (pl pr : nat) : list nat * nat :=
  let pm := (pl + (pr - pl) / 2)%nat in
  let a := median3 a pl pm pr in
  match a !! pm with
  | Some vp =>
      let a := swap a pm (pr - 1) in
      let '(a, pi) := partition_loop (length a) vp a pl (pr - 1) in
      (swap a pi (pr - 1), pi)
  | None => (a, pm)
  end.

(** The main loop for the range [pl .. pr] with depth budget [cdepth]:
    partition while the range is long, continue with the smaller side
    and stack the larger one, insertion-sort the short remainder; a
    stacked range is popped afterwards and heap-sorted when its budget
    is negative. *)
Fixpoint quicksort_range (fuel : nat) (cdepth : Z) (a : list nat) (pl pr : nat)
  : list nat :=
  match fuel with
  | O => a
  | S fuel' =>
      if bool_decide (SMALL_QUICKSORT < pr - pl)%nat then
        let '(a, pi) := partition a pl pr in
        let cdepth := cdepth - 1 in
        let popped (a : list nat) (pl pr : nat) : list nat :=
          if cdepth <? 0 then aheapsort a pl (pr - pl + 1)
          else quicksort_range fuel' cdepth a pl pr in
        if bool_decide (pi - pl < pr - pi)%nat then
          popped (quicksort_range fuel' cdepth a pl (pi - 1)) (pi + 1)%nat pr
        else
          popped (quicksort_range fuel' cdepth a (pi + 1)%nat pr) pl (pi - 1)%nat
      else insertion_sort a pl pr
  end.

(** [aquicksort_(v, tosort, num)] *)
Definition aquicksort (tosort : list nat) : list nat :=
  let num := length tosort in
  quicksort_range (S num) (npy_get_msb num * 2) tosort 0 (num - 1).

(** [v.argsort(kind='quicksort')]: the index array starts as [0 .. n-1]. *)
Definition argsort : list nat := aquicksort (seq 0 (length v)).

End Argsort.
End Npy.

(** The order of [datetime64] values. *)
Definition ts_ltb (a b : Timestamp) : bool :=
  (ts_year a <? ts_year b)
  || ((ts_year a =? ts_year b)
      && ((ts_month a <? ts_month b)
          || ((ts_month a =? ts_month b) && (ts_day a <? ts_day b)))).

(** ** The frame after [dropna] and its derived columns *)

(** A row that survived [dropna(subset=['date', 'amount', 'type'])]: the
    three cells are present.  [idx] is the row's index label, its position
    in the file. *)
Record Txn := mkTxn {
  idx : nat;
  date : Timestamp;
  amount : Z;
  type_ : string
}.

(** ... with the [signed_amount] column (lines 69-73) *)
Record Signed := mkSigned {
  txn :> Txn;
  signed_amount : Z
}.

(** ... with the calendar columns (lines 91-94) *)
Record Enriched := mkEnriched {
  signed :> Signed;
  year : Z;
  month : Z;
  month_name : string;
  day_of_week : string
}.

(** ... with the [running_balance] column (line 100): a row of
    [transactions_clean.csv]. *)
Record Clean := mkClean {
  enriched :> Enriched;
  running_balance : Z
}.

(** A row of [monthly_summary.csv]. *)
Record Summary := mkSummary {
  s_year : Z;
  s_month : Z;
  transaction_count : nat;
  total_income : Z;
  total_expense : Z;
  net_cashflow : Z
}.

(** What a run leaves behind: the two tables written by [to_csv]
    (lines 122-134), or nothing at all (the [return] of lines 86 and 120,
    and the handler of line 143). *)
Inductive Outcome :=
  | Emitted (transactions : list Clean) (monthly_summary : list Summary)
  | Aborted.

(** ** Date conversion (lines 20-54) *)

(** [col.isnull()] *)
Definition isnull {A} (col : list (option A)) : list bool :=
  (λ c, bool_decide (c = None :> option A)) <$> col.
Global Arguments isnull {A} col : simpl never.

(** [mask.any()] and [mask.all()] *)
Definition any (mask : list bool) : bool := existsb id mask.

Definition all (mask : list bool) : bool := forallb id mask.

(** [col.loc[mask]]: the cells selected by a boolean mask. *)
Fixpoint loc {A} (mask : list bool) (col : list A) : list A :=
  match mask, col with
  | b :: mask, c :: col => if b then c :: loc mask col else loc mask col
  | _, _ => []
  end.

(** [col.loc[mask] = values]: the selected cells are overwritten, in order. *)
Fixpoint loc_assign {A} (mask : list bool) (col values : list A) : list A :=
  match mask, col with
  | b :: mask, c :: col =>
      if b then
        match values with
        | x :: values => x :: loc_assign mask col values
        | [] => c :: loc_assign mask col []
        end
      else c :: loc_assign mask col values
  | _, _ => col
  end.

(** Line 22 followed by the [try] block of lines 29-49.  Nothing in the
    block raises on a [datetime64] column, so the handler of lines 51-54 is
    not entered. *)
Definition convert_dates (cells : list (option string)) : list (option Timestamp) :=
  (* line 22 *)
  let date := to_datetime FormatNone false (ObjectCol cells) in
  (* line 30 *)
  let date := to_datetime FormatMixed true (DatetimeCol date) in
  (* lines 33-34 *)
  let null_dates := isnull date in
  if any null_dates then
    (* line 44 *)
    loc_assign null_dates date
      (to_datetime FormatNone false (DatetimeCol (loc null_dates date)))
  else date.

(** The same conversion with the alternative parse of lines 42-49 left out. *)
Definition convert_dates_without_alternative (cells : list (option string))
  : list (option Timestamp) :=
  let date := to_datetime FormatNone false (ObjectCol cells) in
  to_datetime FormatMixed true (DatetimeCol date).

(** ** Filtering (line 58) *)

(** [df.dropna(subset=['date', 'amount', 'type'])], the rows numbered from
    [i] on. *)
Fixpoint dropna_from (i : nat) (dates : list (option Timestamp)) (raw : list RawRow)
  : list Txn :=
  match dates, raw with
  | d :: dates, r :: raw =>
      match d, raw_amount r, raw_type r with
      | Some d, Some a, Some t => mkTxn i d a t :: dropna_from (S i) dates raw
      | _, _, _ => dropna_from (S i) dates raw
      end
  | _, _ => []
  end.

Definition dropna := dropna_from 0.

(** ** Type normalisation and signing (lines 68-73) *)

(** [df['type'].str.strip().str.title()] *)
Definition normalize_type (t : Txn) : Txn :=
  mkTxn (idx t) (date t) (amount t) (Py.title (Py.strip (type_ t))).

(** [np.where(df['type'].eq('Expense'), -df['amount'].abs(), df['amount'].abs())] *)
Definition sign (t : Txn) : Signed :=
  mkSigned t (if bool_decide (type_ t = "Expense") then - Z.abs (amount t)
              else Z.abs (amount t)).

(** ** Calendar columns (lines 91-94) *)

Definition month_names : list string :=
  ["January"; "February"; "March"; "April"; "May"; "June"; "July"; "August";
   "September"; "October"; "November"; "December"].

Definition day_names : list string :=
  ["Monday"; "Tuesday"; "Wednesday"; "Thursday"; "Friday"; "Saturday"; "Sunday"].

(** Days since 1970-01-01 in the proleptic Gregorian calendar. *)
Definition days_from_civil (y m d : Z) : Z :=
  let y := if m <=? 2 then y - 1 else y in
  let era := y / 400 in
  let yoe := y - era * 400 in
  let mp := (m + 9) mod 12 in
  let doy := (153 * mp + 2) / 5 + d - 1 in
  let doe := yoe * 365 + yoe / 4 - yoe / 100 + doy in
  era * 146097 + doe - 719468.

(** [dt.strftime('%B')] *)
Definition strftime_B (t : Timestamp) : string :=
  month_names !!! Z.to_nat (ts_month t - 1).

(** [dt.day_name()]; 1970-01-01 was a Thursday. *)
Definition day_name (t : Timestamp) : string :=
  day_names !!! Z.to_nat ((days_from_civil (ts_year t) (ts_month t) (ts_day t) + 3) mod 7).

Definition add_date_features (s : Signed) : Enriched :=
  mkEnriched s (ts_year (date s)) (ts_month (date s))
             (strftime_B (date s)) (day_name (date s)).

(** ** Sorting and running balance (lines 97-100) *)

(** [df.take(indexer)] *)
Definition take_rows {A} (df : list A) (indexer : list nat) : list A :=
  omap (λ i, df !! i) indexer.

(** [df.sort_values('date')]: no date is NaT after [dropna], so the indexer
    is the argsort of the whole column. *)
Definition sort_values {A} (by_ : A → Timestamp) (df : list A) : list A :=
  take_rows df (Npy.argsort ts_ltb (by_ <$> df)).

(** [Series.cumsum()] *)
Fixpoint cumsum_from (acc : Z) (s : list Z) : list Z :=
  match s with
  | [] => []
  | x :: s => (acc + x) :: cumsum_from (acc + x) s
  end.

Definition cumsum : list Z → list Z := cumsum_from 0.

Definition add_running_balance (df : list Enriched) : list Clean :=
  zip_with mkClean df (cumsum ((λ r : Enriched, signed_amount r) <$> df)).

(** ** Monthly summary (lines 104-110) *)

Definition sum (s : list Z) : Z := foldr Z.add 0 s.

Definition is_empty {A} (s : list A) : bool :=
  match s with [] => true | _ => false end.

(** [lambda s: s[s>0].sum() if not s.empty else 0] *)
Definition agg_total_income (s : list Z) : Z :=
  if negb (is_empty s) then sum (List.filter (λ x, 0 <? x) s) else 0.

(** [lambda s: -s[s<0].sum() if not s.empty and any(s<0) else 0] *)
Definition agg_total_expense (s : list Z) : Z :=
  if negb (is_empty s) && existsb (λ x, x <? 0) s
  then - sum (List.filter (λ x, x <? 0) s) else 0.

Definition group_key (r : Enriched) : Z * Z := (year r, month r).

Definition key_ltb (a b : Z * Z) : bool :=
  (a.1 <? b.1) || ((a.1 =? b.1) && (a.2 <? b.2)).

(** The group keys of [groupby(['year', 'month'])] (with the default
    [sort=True]): the distinct keys in ascending order. *)
Fixpoint insert_key (k : Z * Z) (ks : list (Z * Z)) : list (Z * Z) :=
  match ks with
  | [] => [k]
  | k' :: ks' =>
      if key_ltb k k' then k :: ks
      else if key_ltb k' k then k' :: insert_key k ks'
      else ks
  end.

Definition group_keys (df : list Clean) : list (Z * Z) :=
  foldr insert_key [] ((λ r : Clean, group_key r) <$> df).

(** The [signed_amount] values of one group, in frame order. *)
Definition group_values (df : list Clean) (k : Z * Z) : list Z :=
  (λ r : Clean, signed_amount r)
    <$> List.filter (λ r : Clean, bool_decide (group_key r = k)) df.

Definition aggregate (df : list Clean) (k : Z * Z) : Summary :=
  let s := group_values df k in
  mkSummary k.1 k.2 (length s) (agg_total_income s) (agg_total_expense s) (sum s).

Definition groupby_agg (df : list Clean) : list Summary :=
  aggregate df <$> group_keys df.

(** ** The pipeline *)

(** Lines 88-134 on a frame whose [date] column is [datetime64]. *)
Definition finish (df : list Signed) : Outcome :=
  let df := add_date_features <$> df in                    (* lines 91-94 *)
  let df := sort_values (λ r : Enriched, date r) df in     (* line 97 *)
  let df := add_running_balance df in                      (* line 100 *)
  Emitted df (groupby_agg df).                             (* lines 104-134 *)

(** The [date] column of the frame, with its dtype. *)
Definition date_column (df : list Signed) : DateColumn :=
  DatetimeCol ((λ r : Signed, Some (date r)) <$> df).

(** [main] with the date conversion of lines 20-54 as a parameter. *)
Definition pipeline (convert : list (option string) → list (option Timestamp))
    (raw : list RawRow) : Outcome :=
  let dates := convert (raw_date <$> raw) in               (* lines 20-54 *)
  let df := dropna dates raw in                            (* line 58 *)
  let df := normalize_type <$> df in                       (* line 68 *)
  let df := sign <$> df in                                 (* lines 69-73 *)
  if negb (is_datetime64_any_dtype (date_column df)) then  (* line 76 *)
    let fixed := to_datetime FormatNone false (date_column df) in  (* line 79 *)
    if all (isnull fixed) then Aborted                     (* lines 80-86 *)
    else finish df
  else finish df.

Definition main : list RawRow → Outcome := pipeline convert_dates.

Definition main_without_alternative : list RawRow → Outcome :=
  pipeline convert_dates_without_alternative.

(** A CSV row with its three cells present. *)
Definition row (d : string) (a : Z) (t : string) : RawRow :=
  mkRaw (Some d) (Some a) (Some t).

(** ** Notions used in the statements *)

(** The frame after lines 20-73. *)
Definition filtered (raw : list RawRow) : list Signed :=
  sign <$> (normalize_type <$> dropna (convert_dates (raw_date <$> raw)) raw).

(** The frame after line 100. *)
Definition clean_of (df : list Signed) : list Clean :=
  add_running_balance (sort_values (λ r : Enriched, date r) (add_date_features <$> df)).

(** Dates do not go down from one row to the next. *)
Definition date_ascending (a b : Timestamp) : Prop := ts_ltb b a = false.

(** The insertion sort that the index sort amounts to on a short input,
    on lists: [insert_desc] puts one index into the sorted prefix. *)
Module Isort.
Section Model.
Context {K : Type} (less : K → K → bool) (v : list K).

(** Insertion of the index [vi] into the sorted prefix [r], which is kept
    with its last position first: [vi] moves down past the entries whose
    key is greater. *)
Fixpoint insert_desc (vi : nat) (r : list nat) : list nat :=
  match r with
  | [] => [vi]
  | x :: r' => if Npy.less_val less v vi x then x :: insert_desc vi r' else vi :: r
  end.

Definition isort_desc (r l : list nat) : list nat :=
  foldl (λ r x, insert_desc x r) r l.

(** The keys do not go down from one position to the next. *)
Definition ascending (x y : nat) : Prop := Npy.less_val less v y x = false.

End Model.
End Isort.

(** The decimal digit [d] as a character, and numbers on two and four
    digits. *)
Definition digit_char (d : Z) : ascii := ascii_of_nat (Z.to_nat (48 + d)).

Definition pad2 (n : Z) : string :=
  String (digit_char (n / 10 mod 10)) (String (digit_char (n mod 10)) EmptyString).

Definition pad4 (n : Z) : string :=
  String (digit_char (n / 1000 mod 10)) (String (digit_char (n / 100 mod 10)) (pad2 n)).

(** The text [to_csv] writes for a date (line 128): [YYYY-MM-DD]. *)
Definition isoformat (t : Timestamp) : string :=
  pad4 (ts_year t) +:+ String "-" (pad2 (ts_month t) +:+ String "-" (pad2 (ts_day t))).

(** The clean table read back as an input: [signed_amount] is taken for
    the amount, and every row gets the type [label]. *)
Definition rerun_input (label : string) (clean : list Clean) : list RawRow :=
  (λ r : Clean, mkRaw (Some (isoformat (date r))) (Some (signed_amount r)) (Some label))
    <$> clean.

(** A date as the parser produces it: a calendar date with a year of four
    digits. *)
Definition well_formed (t : Timestamp) : Prop :=
  valid_date (ts_year t) (ts_month t) (ts_day t) = true ∧ 0 ≤ ts_year t ≤ 9999.

(** The character [c] occurs in [s]. *)
Fixpoint has_char (c : ascii) (s : string) : bool :=
  match s with
  | EmptyString => false
  | String c' s' => bool_decide (c' = c) || has_char c s'
  end.

(** ** Sample inputs *)

(** The scenario of section 8 of the specification. *)
Definition sample_raw : list RawRow :=
  [row "2024-01-05" 100 "Income"; row "2024-01-20" 40 "Expense";
   mkRaw (Some "invalid") (Some 10) (Some "Income")].

Definition sample_clean : list Clean := clean_of (filtered sample_raw).



(** Eighteen rows of one day. *)
Definition same_day_raw : list RawRow :=
  (λ k, row "2024-01-05" (Z.of_nat k) "Income") <$> seq 1 18.

(** ** Notions used in further statements *)

(** One summary row is for an earlier month than another. *)
Definition month_before (g h : Summary) : Prop :=
  s_year g < s_year h ∨ (s_year g = s_year h ∧ s_month g < s_month h).


(** The position of a date in the week, Monday being 0, as [day_name]
    looks it up. *)
Definition weekday (t : Timestamp) : Z :=
  (days_from_civil (ts_year t) (ts_month t) (ts_day t) + 3) mod 7.

(** The calendar day after [t]. *)
Definition next_day (t : Timestamp) : Timestamp :=
  if ts_day t <? days_in_month (ts_year t) (ts_month t)
  then mkTs (ts_year t) (ts_month t) (ts_day t + 1)
  else if ts_month t <? 12 then mkTs (ts_year t) (ts_month t + 1) 1
  else mkTs (ts_year t + 1) 1 1.

(** The two layouts of a date text. *)
Definition iso_layout (s : string) : Prop :=
  ∃ y m d, read_text s = Some (IsoText y m d).

Definition slash_layout (s : string) : Prop :=
  ∃ a b y, read_text s = Some (SlashText a b y).



(** ** Notions for the index sort on a range of positions *)
Module Range.
Section Model.
Context {K : Type} (less : K → K → bool) (v : list K).

(** Every entry is an index of the key array. *)
Definition valid (a : list nat) : Prop := Forall (λ x, x < length v)%nat a.

(** The key of [x] is not above the key of [y]. *)
Definition le (x y : nat) : Prop := Npy.less_val less v y x = false.

(** The entries at the positions [lo .. hi] satisfy [P]. *)
Definition elems (a : list nat) (lo hi : nat) (P : nat → Prop) : Prop :=
  ∀ k x, (lo ≤ k ≤ hi)%nat → a !! k = Some x → P x.

(** The keys do not go down over the positions [lo .. hi]. *)
Definition sorted (a : list nat) (lo hi : nat) : Prop :=
  ∀ i j x y, (lo ≤ i)%nat → (i < j)%nat → (j ≤ hi)%nat →
    a !! i = Some x → a !! j = Some y → le x y.

(** [a'] is [a] outside the positions [lo .. hi]. *)
Definition frame (a a' : list nat) (lo hi : nat) : Prop :=
  ∀ k, (k < lo ∨ hi < k)%nat → a' !! k = a !! k.

(** Heap order on the slots [1 .. n] from [base], for the parents from
    slot [lo] on: no child is above its parent. *)
Definition heap (a : list nat) (base lo n : nat) : Prop :=
  ∀ c x y, (2 ≤ c ≤ n)%nat → (lo ≤ c / 2)%nat →
    a !! Npy.slot base c = Some x → a !! Npy.slot base (c / 2) = Some y → le x y.

End Model.
End Range.

(** ** Column names (line 13) *)

(** [str.lower] on the ASCII range. *)
Fixpoint str_lower (s : string) : string :=
  match s with
  | EmptyString => EmptyString
  | String c s' => String (Py.lower c) (str_lower s')
  end.

(** [[str(c).strip().lower() for c in df.columns]]; the names that
    [read_csv] delivers are texts, on which [str] is the identity. *)
Definition clean_columns (columns : list string) : list string :=
  (λ c, str_lower (Py.strip c)) <$> columns.

(** ** Notions for texts *)

(** The text starts with a blank. *)
Definition starts_space (s : string) : bool :=
  match s with
  | EmptyString => false
  | String c _ => Py.isspace c
  end.



(** [str.rstrip] from the left: a character stays when a character after
    it stays or when it is not a blank. *)
Fixpoint rstrip_rec (s : string) : string :=
  match s with
  | EmptyString => EmptyString
  | String c s' =>
      match rstrip_rec s' with
      | EmptyString => if Py.isspace c then EmptyString else String c EmptyString
      | String _ _ as r => String c r
      end
  end.

(** * Properties *)

(** ** Evaluation of the model on sample values *)

Example guess_slash : guess_datetime_format false "03/04/2024" = Some Fmt_mdY.
Proof. reflexivity. Qed.

Example to_datetime_default_slash :
  to_datetime FormatNone false (ObjectCol [Some "03/04/2024"]) = [Some (mkTs 2024 3 4)].
Proof. reflexivity. Qed.

Example to_datetime_dayfirst_slash :
  to_datetime FormatMixed true (ObjectCol [Some "03/04/2024"]) = [Some (mkTs 2024 4 3)].
Proof. reflexivity. Qed.

Example title_expense : Py.title (Py.strip "  eXPENSE ") = "Expense".
Proof. reflexivity. Qed.

Example argsort_small :
  Npy.argsort ts_ltb [mkTs 2024 3 1; mkTs 2024 1 5; mkTs 2024 1 5; mkTs 2023 12 31]
  = [3; 1; 2; 0]%nat.
Proof. reflexivity. Qed.

Example argsort_ties18 :
  Npy.argsort Z.ltb (replicate 18 0) =
  [0; 15; 14; 13; 12; 11; 10; 9; 8; 7; 6; 5; 4; 3; 2; 1; 16; 17]%nat.
Proof. vm_compute. reflexivity. Qed.

Example scenario_section_8 :
  main [row "2024-01-05" 100 "Income"; row "2024-01-20" 40 "Expense";
        mkRaw (Some "invalid") (Some 10) (Some "Income")]
  = Emitted
      [mkClean (mkEnriched (mkSigned (mkTxn 0 (mkTs 2024 1 5) 100 "Income") 100)
                           2024 1 "January" "Friday") 100;
       mkClean (mkEnriched (mkSigned (mkTxn 1 (mkTs 2024 1 20) 40 "Expense") (-40))
                           2024 1 "January" "Saturday") 60]
      [mkSummary 2024 1 2 100 40 60].
Proof. vm_compute. reflexivity. Qed.

(** ** Date conversion *)

Lemma loc_assign_loc {A} (mask : list bool) (col : list A) :
  loc_assign mask col (loc mask col) = col.
Proof.
  revert col. induction mask as [|b mask IH]; intros [|c col]; simpl; try done.
  destruct b; simpl; by rewrite IH.
Qed.

Lemma convert_dates_primary cells :
  convert_dates cells = to_datetime FormatNone false (ObjectCol cells).
Proof.
  unfold convert_dates. simpl.
  destruct (any _); [|done]. apply loc_assign_loc.
Qed.

Lemma convert_dates_alternative cells :
  convert_dates cells = convert_dates_without_alternative cells.
Proof. by rewrite convert_dates_primary. Qed.

Lemma to_datetime_length format dayfirst cells :
  length (to_datetime format dayfirst (ObjectCol cells)) = length cells.
Proof.
  unfold to_datetime. destruct format; [|by rewrite length_fmap].
  destruct (_ ≫= _); by rewrite length_fmap.
Qed.

Lemma main_emits raw :
  main raw = Emitted (clean_of (filtered raw)) (groupby_agg (clean_of (filtered raw))).
Proof. reflexivity. Qed.

Lemma main_inv raw clean ms :
  main raw = Emitted clean ms →
  clean = clean_of (filtered raw) ∧ ms = groupby_agg clean.
Proof. rewrite main_emits. by intros [= <- <-]. Qed.

(** ** Running balance *)

Lemma enriched_add_running_balance df :
  enriched <$> add_running_balance df = df.
Proof.
  unfold add_running_balance, cumsum. generalize 0.
  induction df as [|r df IH]; intros acc; simpl; [done|]. by rewrite IH.
Qed.

Lemma length_add_running_balance df :
  length (add_running_balance df) = length df.
Proof. by rewrite <-(enriched_add_running_balance df) at 2; rewrite length_fmap. Qed.




(** ** Aggregation *)

Lemma sum_cons x (s : list Z) : sum (x :: s) = x + sum s.
Proof. reflexivity. Qed.






(** ** Where the rows of the clean table come from *)

Lemma take_rows_elem {A} (df : list A) indexer (r : A) :
  r ∈ take_rows df indexer → r ∈ df.
Proof.
  unfold take_rows. rewrite list_elem_of_omap.
  intros (i & _ & Hi). by eapply list_elem_of_lookup_2.
Qed.

Lemma sort_values_elem {A} (by_ : A → Timestamp) (df : list A) (r : A) :
  r ∈ sort_values by_ df → r ∈ df.
Proof. apply take_rows_elem. Qed.

Lemma clean_of_elem df (r : Clean) :
  r ∈ clean_of df → ∃ s, s ∈ df ∧ enriched r = add_date_features s.
Proof.
  intros Hr. unfold clean_of in Hr.
  apply (list_elem_of_fmap_2 enriched) in Hr.
  rewrite enriched_add_running_balance in Hr.
  apply sort_values_elem, list_elem_of_fmap in Hr as (s & -> & Hs). eauto.
Qed.

Lemma dropna_from_elem i dates raw (t : Txn) :
  t ∈ dropna_from i dates raw →
  ∃ k rr, idx t = (i + k)%nat ∧ raw !! k = Some rr
          ∧ dates !! k = Some (Some (date t))
          ∧ raw_amount rr = Some (amount t) ∧ raw_type rr = Some (type_ t).
Proof.
  revert i raw. induction dates as [|d dates IH]; intros i [|rr raw]; simpl;
    try by intros ?%elem_of_nil.
  assert (t ∈ dropna_from (S i) dates raw →
          ∃ k rr', idx t = (i + k)%nat ∧ (rr :: raw) !! k = Some rr'
            ∧ (d :: dates) !! k = Some (Some (date t))
            ∧ raw_amount rr' = Some (amount t) ∧ raw_type rr' = Some (type_ t)) as Htl.
  { intros (k & rr' & ? & ? & ? & ? & ?)%IH.
    exists (S k), rr'. split_and!; try done. lia. }
  destruct d as [d|]; [|done].
  destruct (raw_amount rr) as [a|] eqn:Ea; [|done].
  destruct (raw_type rr) as [ty|] eqn:Et; [|done].
  intros [->|?]%elem_of_cons; [|by apply Htl].
  exists 0%nat, rr. simpl. split_and!; try done; lia.
Qed.

(** Every clean row stems from the input row with its index label: the
    date is the resolved date of that row, the amount is its amount, the
    type is its type stripped and title-cased, and the signed amount is
    computed from these two. *)
Lemma clean_origin raw (r : Clean) :
  r ∈ clean_of (filtered raw) →
  ∃ rr t0, raw !! idx r = Some rr
    ∧ convert_dates (raw_date <$> raw) !! idx r = Some (Some (date r))
    ∧ raw_amount rr = Some (amount r)
    ∧ raw_type rr = Some t0 ∧ type_ r = Py.title (Py.strip t0)
    ∧ signed_amount r = (if bool_decide (type_ r = "Expense")
                         then - Z.abs (amount r) else Z.abs (amount r)).
Proof.
  intros (s & Hs & Hr)%clean_of_elem. unfold filtered in Hs.
  apply list_elem_of_fmap in Hs as (t' & -> & Ht').
  apply list_elem_of_fmap in Ht' as (t & -> & Ht).
  apply dropna_from_elem in Ht as (k & rr & Hk & Hraw & Hd & Ha & Hty).
  simpl in Hk. subst k. exists rr, (type_ t).
  rewrite Hr. simpl. by split_and!.
Qed.

(** ** C1: the ambiguous date *)

(** C1 (evaluation of the code): a column that starts with the text
    "03/04/2024" has this cell resolved to March 4th, 2024, whatever
    follows it.  The conversion of line 22 runs first and without
    [dayfirst]; the day-first conversion of line 30 then receives a
    [datetime64] column and leaves it as it is. *)
Theorem ambiguous_date_is_read_month_first (rest : list (option string)) :
  convert_dates (Some "03/04/2024" :: rest) !! 0%nat = Some (Some (mkTs 2024 3 4)).
Proof. rewrite convert_dates_primary. reflexivity. Qed.

Example ambiguous_date_run :
  main [row "03/04/2024" 10 "Income"]
  = Emitted
      [mkClean (mkEnriched (mkSigned (mkTxn 0 (mkTs 2024 3 4) 10 "Income") 10)
                           2024 3 "March" "Monday") 10]
      [mkSummary 2024 3 1 10 0 10].
Proof. vm_compute. reflexivity. Qed.

(** ** C2 and C8: runs without transactions *)

Lemma dropna_from_all_null i dates raw :
  (∀ d, d ∈ dates → d = None) → dropna_from i dates raw = [].
Proof.
  revert i raw. induction dates as [|d dates IH]; intros i [|rr raw] H; simpl; try done.
  rewrite (H d) by left. apply IH. intros d' Hd'. apply H. by right.
Qed.

(** The guard of line 76 always finds a [datetime64] column, so no run
    takes the [return] of line 86. *)
Lemma date_column_is_datetime64 df : is_datetime64_any_dtype (date_column df) = true.
Proof. reflexivity. Qed.

Lemma main_never_aborts raw : main raw ≠ Aborted.
Proof. by rewrite main_emits. Qed.

(** C2 (evaluation of the code): when no date of the input resolves, the
    run does not abort: it writes an empty clean table and an empty
    summary, as a run without data rows does.  The guard of lines 76-86
    that would abort is not entered, the column being [datetime64]. *)
Theorem unresolved_dates_emit_empty_tables raw :
  (∀ d, d ∈ convert_dates (raw_date <$> raw) → d = None) →
  main raw = Emitted [] [].
Proof.
  intros H. rewrite main_emits. unfold filtered, dropna.
  by rewrite dropna_from_all_null.
Qed.

Lemma unresolved_dates_emit_empty_tables_witness :
  main [mkRaw (Some "not a date") (Some 10) (Some "Income");
        mkRaw None (Some 5) (Some "Expense")] = Emitted [] [].
Proof.
  apply unresolved_dates_emit_empty_tables.
  vm_compute. intros d Hd. by repeat (apply elem_of_cons in Hd as [->|Hd]; [done|]);
    apply elem_of_nil in Hd.
Defined.

(** C8: an input without data rows runs to the end and yields an empty
    clean table and an empty monthly summary. *)
Theorem empty_input_emits_empty_tables : main [] = Emitted [] [].
Proof. reflexivity. Qed.

(** ** C9: the alternative parse *)

(** C9: the alternative parse of lines 42-49 re-converts cells that are
    already NaT in a [datetime64] column, so it changes no cell: the
    converted column, hence the set of rows with a resolved date, is the
    same with and without it, and so is the whole run. *)
Theorem alternative_parse_changes_nothing raw :
  convert_dates (raw_date <$> raw) = convert_dates_without_alternative (raw_date <$> raw)
  ∧ isnull (convert_dates (raw_date <$> raw))
    = isnull (convert_dates_without_alternative (raw_date <$> raw))
  ∧ main raw = main_without_alternative raw.
Proof.
  split_and!.
  - apply convert_dates_alternative.
  - by rewrite convert_dates_alternative.
  - unfold main, main_without_alternative, pipeline.
    by rewrite convert_dates_alternative.
Qed.


(** ** C4: the running balance *)



(** ** C5: the monthly aggregates *)



(** ** C6: the sign of the signed amount *)




(** ** The index sort returns a permutation *)

Section ArgsortPermutation.
Context {K : Type} (less : K → K → bool) (v : list K).

Local Abbreviation swap := Npy.swap.
Local Abbreviation insert_shift := (Npy.insert_shift less v).
Local Abbreviation insertion_sort := (Npy.insertion_sort less v).
Local Abbreviation sift := (Npy.sift less v).
Local Abbreviation heapify := (Npy.heapify less v).
Local Abbreviation extract := (Npy.extract less v).
Local Abbreviation aheapsort := (Npy.aheapsort less v).
Local Abbreviation median3 := (Npy.median3 less v).
Local Abbreviation partition_loop := (Npy.partition_loop less v).
Local Abbreviation partition := (Npy.partition less v).
Local Abbreviation quicksort_range := (Npy.quicksort_range less v).
Local Abbreviation aquicksort := (Npy.aquicksort less v).

Lemma swap_Permutation (a : list nat) i j : swap a i j ≡ₚ a.
Proof.
  unfold Npy.swap.
  destruct (a !! i) as [x|] eqn:Hi; [|done].
  destruct (a !! j) as [y|] eqn:Hj; [|done].
  by apply Permutation_insert_swap.
Qed.

(** Moving the hole: writing [a[j]] into the hole at [i] and making [j]
    the hole. *)
Lemma hole_move (a : list nat) i j x tmp :
  (i < length a)%nat → a !! j = Some x →
  <[j := tmp]> (<[i := x]> a) ≡ₚ <[i := tmp]> a.
Proof.
  intros Hi Hj. destruct (decide (i = j)) as [->|Hne].
  { by rewrite list_insert_insert_eq. }
  rewrite <-(list_insert_insert_eq a i x tmp).
  apply Permutation_insert_swap.
  - by apply list_lookup_insert_eq.
  - by rewrite list_lookup_insert_ne.
Qed.

Lemma insert_shift_Permutation pl vi (a : list nat) pj :
  (pj < length a)%nat → insert_shift pl vi a pj ≡ₚ <[pj := vi]> a.
Proof.
  revert a. induction pj as [|pk IH]; intros a Hpj; simpl; [done|].
  destruct (a !! pk) as [x|] eqn:Hpk; [|done].
  destruct (_ && _); [|done].
  rewrite IH by (rewrite length_insert; lia).
  by apply hole_move.
Qed.

Lemma insertion_sort_Permutation (a : list nat) pl pr :
  insertion_sort a pl pr ≡ₚ a.
Proof.
  unfold Npy.insertion_sort. generalize (seq (S pl) (pr - pl)). intros ps.
  revert a. induction ps as [|pi ps IH]; intros a; simpl; [done|].
  rewrite IH. destruct (a !! pi) as [vi|] eqn:Hpi; [|done].
  rewrite insert_shift_Permutation by eauto using lookup_lt_Some.
  by rewrite list_insert_id.
Qed.

Lemma sift_Permutation fuel base n tmp (a : list nat) i j :
  (Npy.slot base i < length a)%nat →
  sift fuel base n tmp a i j ≡ₚ <[Npy.slot base i := tmp]> a.
Proof.
  revert a i j. induction fuel as [|fuel IH]; intros a i j Hi; simpl; [done|].
  case_bool_decide; [|done].
  set (j' := if _ && _ then _ else _).
  destruct (a !! Npy.slot base j') as [x|] eqn:Hj; [|done].
  destruct (Npy.less_val less v tmp x); [|done].
  rewrite IH.
  - by apply hole_move.
  - rewrite length_insert. eauto using lookup_lt_Some.
Qed.

Lemma heapify_Permutation base n (a : list nat) l : heapify base n a l ≡ₚ a.
Proof.
  revert a. induction l as [|l IH]; intros a; simpl; [done|].
  rewrite IH. destruct (a !! Npy.slot base (S l)) as [tmp|] eqn:Hl; [|done].
  rewrite sift_Permutation by eauto using lookup_lt_Some.
  by rewrite list_insert_id.
Qed.

Lemma extract_Permutation base (a : list nat) n : extract base a n ≡ₚ a.
Proof.
  revert a. induction n as [|n IH]; intros a; simpl; [done|].
  case_bool_decide; [|done].
  destruct (a !! Npy.slot base (S n)) as [tmp|] eqn:Hn; [|done].
  destruct (a !! Npy.slot base 1) as [top|] eqn:H1; [|done].
  rewrite IH, sift_Permutation
    by (rewrite length_insert; eauto using lookup_lt_Some).
  by apply Permutation_insert_swap.
Qed.

Lemma aheapsort_Permutation (a : list nat) base n : aheapsort a base n ≡ₚ a.
Proof.
  unfold Npy.aheapsort. by rewrite extract_Permutation, heapify_Permutation.
Qed.

Lemma median3_Permutation (a : list nat) pl pm pr : median3 a pl pm pr ≡ₚ a.
Proof.
  unfold Npy.median3.
  repeat (destruct (Npy.less_at _ _ _ _ _); rewrite ?swap_Permutation); done.
Qed.

Lemma partition_loop_Permutation fuel vp (a : list nat) pi pj :
  (partition_loop fuel vp a pi pj).1 ≡ₚ a.
Proof.
  revert a pi pj. induction fuel as [|fuel IH]; intros a pi pj; simpl.
  - by case_bool_decide.
  - case_bool_decide; [done|]. by rewrite IH, swap_Permutation.
Qed.

Lemma partition_Permutation (a : list nat) pl pr : (partition a pl pr).1 ≡ₚ a.
Proof.
  unfold Npy.partition.
  destruct (median3 a pl _ pr !! _) as [vp|]; simpl.
  - pose proof (partition_loop_Permutation
                  (length (swap (median3 a pl (pl + (pr - pl) / 2) pr)
                                (pl + (pr - pl) / 2) (pr - 1)))
                  vp (swap (median3 a pl (pl + (pr - pl) / 2) pr)
                           (pl + (pr - pl) / 2) (pr - 1)) pl (pr - 1)) as H.
    destruct (partition_loop _ _ _ _ _) as [a' pi]. simpl in *.
    by rewrite swap_Permutation, H, swap_Permutation, median3_Permutation.
  - apply median3_Permutation.
Qed.

Lemma quicksort_range_Permutation fuel cdepth (a : list nat) pl pr :
  quicksort_range fuel cdepth a pl pr ≡ₚ a.
Proof.
  revert cdepth a pl pr.
  induction fuel as [|fuel IH]; intros cdepth a pl pr; simpl; [done|].
  case_bool_decide; [|apply insertion_sort_Permutation].
  pose proof (partition_Permutation a pl pr) as Hp.
  destruct (partition a pl pr) as [a' pi]. simpl in Hp.
  case_bool_decide; destruct (cdepth - 1 <? 0);
    by rewrite ?aheapsort_Permutation, ?IH.
Qed.

Lemma aquicksort_Permutation (tosort : list nat) : aquicksort tosort ≡ₚ tosort.
Proof. apply quicksort_range_Permutation. Qed.

Lemma argsort_Permutation : Npy.argsort less v ≡ₚ seq 0 (length v).
Proof. apply aquicksort_Permutation. Qed.

End ArgsortPermutation.

Lemma take_rows_seq {A} (pre df : list A) :
  take_rows (pre ++ df) (seq (length pre) (length df)) = df.
Proof.
  unfold take_rows. revert pre. induction df as [|x df IH]; intros pre; simpl; [done|].
  rewrite list_lookup_middle by done. f_equal.
  specialize (IH (pre ++ [x])).
  rewrite length_app, Nat.add_1_r, <-app_assoc in IH. exact IH.
Qed.

Lemma sort_values_Permutation {A} (by_ : A → Timestamp) (df : list A) :
  sort_values by_ df ≡ₚ df.
Proof.
  unfold sort_values, take_rows.
  rewrite argsort_Permutation, length_fmap.
  pose proof (take_rows_seq [] df) as H. unfold take_rows in H. simpl in H.
  by rewrite H.
Qed.

(** ** The index sort does not run out of fuel *)

Section ArgsortFuel.
Context {K : Type} (less : K → K → bool) (v : list K).
Hypothesis less_irrefl : ∀ k, less k k = false.

Local Abbreviation swap := Npy.swap.
Local Abbreviation scan_up := (Npy.scan_up less v).
Local Abbreviation scan_down := (Npy.scan_down less v).
Local Abbreviation sift := (Npy.sift less v).
Local Abbreviation partition_loop := (Npy.partition_loop less v).
Local Abbreviation partition := (Npy.partition less v).
Local Abbreviation quicksort_range := (Npy.quicksort_range less v).

Lemma less_val_irrefl x : Npy.less_val less v x x = false.
Proof. unfold Npy.less_val. by destruct (v !! x). Qed.

Lemma swap_length (a : list nat) i j : length (swap a i j) = length a.
Proof. apply Permutation_length, swap_Permutation. Qed.

Lemma swap_lookup_ne (a : list nat) i j p :
  p ≠ i → p ≠ j → swap a i j !! p = a !! p.
Proof.
  intros Hi Hj. unfold Npy.swap.
  destruct (a !! i), (a !! j); try done.
  by rewrite !list_lookup_insert_ne.
Qed.

Lemma swap_lookup_r (a : list nat) i j x :
  a !! i = Some x → (j < length a)%nat → swap a i j !! j = Some x.
Proof.
  intros Hi Hj. unfold Npy.swap. rewrite Hi.
  apply lookup_lt_is_Some in Hj as [y Hy]. rewrite Hy.
  destruct (decide (i = j)) as [->|Hne].
  - rewrite list_lookup_insert_eq by (rewrite length_insert; eauto using lookup_lt_Some).
    congruence.
  - rewrite list_lookup_insert_ne by done.
    by rewrite list_lookup_insert_eq by eauto using lookup_lt_Some.
Qed.

(** The upward scan moves on, and stops at the pivot at the latest. *)
Lemma scan_up_bounds fuel vp (a : list nat) pi p :
  a !! p = Some vp → (pi < p)%nat →
  (pi < scan_up fuel vp a pi ≤ p)%nat.
Proof.
  intros Hp. revert pi. induction fuel as [|fuel IH]; intros pi Hpi; simpl; [lia|].
  destruct (a !! S pi) as [x|] eqn:Hx; [|lia].
  destruct (Npy.less_val less v x vp) eqn:Hlt; [|lia].
  destruct (decide (S pi = p)) as [<-|Hne].
  - rewrite Hx in Hp. injection Hp as ->. by rewrite less_val_irrefl in Hlt.
  - specialize (IH (S pi)). lia.
Qed.

Lemma scan_up_lt fuel vp (a : list nat) pi : (pi < scan_up fuel vp a pi)%nat.
Proof.
  revert pi. induction fuel as [|fuel IH]; intros pi; simpl; [lia|].
  destruct (a !! S pi); [|lia]. destruct (Npy.less_val _ _ _ _); [|lia].
  specialize (IH (S pi)). lia.
Qed.

Lemma scan_up_fuel f1 f2 vp (a : list nat) pi :
  (length a ≤ f1 + pi)%nat → (length a ≤ f2 + pi)%nat →
  scan_up f1 vp a pi = scan_up f2 vp a pi.
Proof.
  revert f2 pi. induction f1 as [|f1 IH]; intros f2 pi H1 H2.
  - destruct f2; simpl; [done|].
    by rewrite lookup_ge_None_2 by lia.
  - simpl. destruct (a !! S pi) as [x|] eqn:Hx.
    + pose proof (lookup_lt_Some _ _ _ Hx). destruct f2 as [|f2]; [lia|].
      simpl. rewrite Hx. destruct (Npy.less_val less v x vp); [|done].
      apply IH; lia.
    + destruct f2; simpl; [done|]. by rewrite Hx.
Qed.

Lemma scan_down_le vp (a : list nat) pj : (scan_down vp a pj ≤ pj - 1)%nat.
Proof.
  induction pj as [|pj IH]; simpl; [lia|].
  destruct (a !! pj); [|lia]. destruct (Npy.less_val _ _ _ _); lia.
Qed.

(** The partitioning loop returns a position between the start of the
    range and the pivot. *)
Lemma partition_loop_bounds fuel vp (a : list nat) pi pj p :
  a !! p = Some vp → (pi < p)%nat → (pj ≤ p)%nat →
  (pi < (partition_loop fuel vp a pi pj).2 ≤ p)%nat.
Proof.
  revert a pi pj. induction fuel as [|fuel IH]; intros a pi pj Hp Hpi Hpj;
    pose proof (scan_up_bounds (length a) vp a pi p Hp Hpi) as Hup;
    pose proof (scan_down_le vp a pj) as Hdown; simpl.
  - by case_bool_decide.
  - case_bool_decide as Hcross; [done|].
    apply not_le in Hcross.
    specialize (IH (swap a (scan_up (length a) vp a pi) (scan_down vp a pj))
                   (scan_up (length a) vp a pi) (scan_down vp a pj)).
    rewrite swap_lookup_ne in IH by lia.
    specialize (IH Hp). lia.
Qed.

Lemma partition_loop_fuel f1 f2 vp (a : list nat) pi pj :
  (pj ≤ f1 + pi)%nat → (pj ≤ f2 + pi)%nat →
  partition_loop f1 vp a pi pj = partition_loop f2 vp a pi pj.
Proof.
  revert f2 a pi pj. induction f1 as [|f1 IH]; intros f2 a pi pj H1 H2;
    pose proof (scan_down_le vp a pj) as Hdown;
    pose proof (scan_up_lt (length a) vp a pi) as Hup.
  - destruct f2; simpl; case_bool_decide; try done; lia.
  - destruct f2 as [|f2]; simpl; case_bool_decide; try done; [lia|].
    apply IH; lia.
Qed.

Lemma median3_length (a : list nat) pl pm pr :
  length (Npy.median3 less v a pl pm pr) = length a.
Proof. apply Permutation_length, median3_Permutation. Qed.

(** One partitioning step of a range of three or more positions returns a
    pivot position strictly inside the range. *)
Lemma partition_bounds (a : list nat) pl pr :
  (pl + 1 < pr)%nat → (pr < length a)%nat →
  (pl < (partition a pl pr).2 < pr)%nat.
Proof.
  intros Hrange Hpr. unfold Npy.partition.
  set (pm := (pl + (pr - pl) / 2)%nat).
  assert (pl ≤ pm ∧ pm ≤ pr - 1)%nat as [Hpm1 Hpm2].
  { unfold pm. pose proof (Nat.div_lt (pr - pl) 2 ltac:(lia) ltac:(lia)). lia. }
  set (a1 := Npy.median3 less v a pl pm pr).
  assert (length a1 = length a) as Hlen1 by apply median3_length.
  destruct (a1 !! pm) as [vp|] eqn:Hvp.
  2:{ apply lookup_ge_None in Hvp. lia. }
  pose proof (partition_loop_bounds (length (swap a1 pm (pr - 1))) vp
                (swap a1 pm (pr - 1)) pl (pr - 1) (pr - 1)) as H.
  destruct (partition_loop _ _ _ _ _) as [a2 pi]. simpl in *.
  rewrite (swap_lookup_r a1 pm (pr - 1) vp Hvp) in H by lia.
  specialize (H eq_refl). lia.
Qed.

Lemma quicksort_range_length fuel cdepth (a : list nat) pl pr :
  length (quicksort_range fuel cdepth a pl pr) = length a.
Proof. apply Permutation_length, quicksort_range_Permutation. Qed.

Lemma partition_length (a : list nat) pl pr : length (partition a pl pr).1 = length a.
Proof. apply Permutation_length, partition_Permutation. Qed.

(** Any fuel above the length of the range gives the same result. *)
Lemma quicksort_range_fuel f1 f2 cdepth (a : list nat) pl pr :
  (pr - pl < f1)%nat → (pr - pl < f2)%nat → (pr < length a)%nat →
  quicksort_range f1 cdepth a pl pr = quicksort_range f2 cdepth a pl pr.
Proof.
  revert f2 cdepth a pl pr.
  induction f1 as [|f1 IH]; intros f2 cdepth a pl pr H1 H2 Hpr; [lia|].
  destruct f2 as [|f2]; [lia|]. simpl.
  case_bool_decide as Hbig; [|done].
  unfold Npy.SMALL_QUICKSORT in Hbig.
  pose proof (partition_bounds a pl pr ltac:(lia) Hpr) as Hpi.
  pose proof (partition_length a pl pr) as Hlen.
  destruct (partition a pl pr) as [a' pi]. simpl in Hpi, Hlen.
  case_bool_decide.
  - rewrite (IH f2 (cdepth - 1) a' pl (pi - 1)%nat) by lia.
    destruct (cdepth - 1 <? 0); [done|].
    apply IH; rewrite ?quicksort_range_length; lia.
  - rewrite (IH f2 (cdepth - 1) a' (pi + 1)%nat pr) by lia.
    destruct (cdepth - 1 <? 0); [done|].
    apply IH; rewrite ?quicksort_range_length; lia.
Qed.

(** The fuel of [aquicksort] is enough: more fuel changes nothing. *)
Lemma aquicksort_fuel fuel (tosort : list nat) :
  (length tosort < fuel)%nat →
  quicksort_range fuel (Npy.npy_get_msb (length tosort) * 2) tosort 0 (length tosort - 1)
  = Npy.aquicksort less v tosort.
Proof.
  intros Hfuel. unfold Npy.aquicksort.
  destruct tosort as [|x tosort].
  - destruct fuel; [simpl in Hfuel; lia|]. reflexivity.
  - cbn [length] in *. apply quicksort_range_fuel; cbn [length]; lia.
Qed.

(** The sift-down loop doubles [j] in every round, so the heap size is
    enough fuel for it. *)
Lemma sift_fuel f1 f2 base n tmp (a : list nat) i j :
  (1 ≤ j)%nat → (n < f1 + j)%nat → (n < f2 + j)%nat →
  sift f1 base n tmp a i j = sift f2 base n tmp a i j.
Proof.
  revert f2 a i j. induction f1 as [|f1 IH]; intros f2 a i j Hj H1 H2.
  - destruct f2; simpl; [done|]. by rewrite bool_decide_eq_false_2 by lia.
  - destruct f2 as [|f2]; simpl.
    + by rewrite bool_decide_eq_false_2 by lia.
    + case_bool_decide; [|done].
      set (j' := if _ && _ then _ else _).
      assert (j ≤ j')%nat by (unfold j'; destruct (_ && _); lia).
      destruct (a !! Npy.slot base j'); [|done].
      destruct (Npy.less_val _ _ _ _); [|done].
      apply IH; lia.
Qed.

End ArgsortFuel.

(** ** Short inputs: the index sort is a stable insertion sort *)

Section InsertionSort.
Context {K : Type} (less : K → K → bool) (v : list K).

Local Abbreviation less_val := (Npy.less_val less v).
Local Abbreviation insert_desc := (Isort.insert_desc less v).
Local Abbreviation isort_desc := (Isort.isort_desc less v).
Local Abbreviation ascending := (Isort.ascending less v).

Lemma insert_desc_length vi r : length (insert_desc vi r) = S (length r).
Proof.
  induction r as [|x r IH]; simpl; [done|].
  destruct (less_val vi x); simpl; by rewrite ?IH.
Qed.

Lemma insert_shift_prefix vi r h rest :
  Npy.insert_shift less v 0 vi (reverse r ++ h :: rest) (length r)
  = reverse (insert_desc vi r) ++ rest.
Proof.
  revert h rest. induction r as [|x r IH]; intros h rest; simpl; [done|].
  rewrite reverse_cons, <-app_assoc. simpl.
  rewrite list_lookup_middle by (by rewrite length_reverse).
  destruct (less_val vi x) eqn:Hlt; simpl.
  - rewrite reverse_cons, <-app_assoc. simpl.
    rewrite <-(IH x (x :: rest)). f_equal.
    rewrite insert_app_r_alt by (rewrite length_reverse; lia).
    rewrite length_reverse.
    by replace (S (length r) - length r)%nat with 1%nat by lia.
  - rewrite !reverse_cons, <-!app_assoc. simpl.
    rewrite insert_app_r_alt by (rewrite length_reverse; lia).
    rewrite length_reverse.
    by replace (S (length r) - length r)%nat with 1%nat by lia.
Qed.




(** *** Stability *)

Section Stability.
Context (P : nat → Prop) `{!∀ x, Decision (P x)}.
Hypothesis P_class : ∀ x y, P x → P y → less_val x y = false.



End Stability.

(** *** Order *)

Hypothesis less_asym : ∀ a b, less a b = true → less b a = false.





End InsertionSort.

(** ** The date order *)

Lemma ts_ltb_irrefl a : ts_ltb a a = false.
Proof. unfold ts_ltb. rewrite !Z.ltb_irrefl, !Z.eqb_refl. reflexivity. Qed.


(** ** Sorting a frame *)

Lemma take_rows_fmap {A B} (g : A → B) (df : list A) indexer :
  take_rows (g <$> df) indexer = g <$> take_rows df indexer.
Proof.
  unfold take_rows. induction indexer as [|i ix IH]; [done|].
  cbn [omap list_omap]. fold (omap (λ i, (g <$> df) !! i) ix).
  fold (omap (λ i, df !! i) ix).
  rewrite list_lookup_fmap, IH. by destruct (df !! i).
Qed.

Lemma sort_values_fmap {A B} (g : A → B) (by_A : A → Timestamp) (by_B : B → Timestamp)
    (df : list A) :
  (∀ x, by_B (g x) = by_A x) →
  sort_values by_B (g <$> df) = g <$> sort_values by_A df.
Proof.
  intros Hby. unfold sort_values. rewrite take_rows_fmap, <-list_fmap_compose.
  replace (by_B ∘ g <$> df) with (by_A <$> df); [done|].
  apply list_fmap_ext. intros ? x _. symmetry. apply Hby.
Qed.






Lemma take_rows_Sorted {A} (by_ : A → Timestamp) (df : list A) indexer :
  Forall (λ i, i < length df)%nat indexer →
  Sorted (Isort.ascending ts_ltb (by_ <$> df)) indexer →
  Sorted date_ascending (by_ <$> take_rows df indexer).
Proof.
  unfold take_rows. intros Hin Hs.
  induction Hs as [|i ix Hs IH Hhd]; [constructor|].
  apply Forall_cons in Hin as [Hi Hin].
  apply lookup_lt_is_Some in Hi as [r Hr]. cbn [omap list_omap]. rewrite Hr.
  csimpl. constructor; [by apply IH|].
  destruct Hhd as [|j ix' Hj]; [constructor|].
  apply Forall_cons in Hin as [Hj' _].
  apply lookup_lt_is_Some in Hj' as [r' Hr']. cbn [omap list_omap]. rewrite Hr'.
  csimpl. constructor. unfold Isort.ascending, Npy.less_val in Hj.
  by rewrite !list_lookup_fmap, Hr, Hr' in Hj.
Qed.


(** The rows of the clean table are the filtered rows, sorted. *)
Lemma signed_clean_of df :
  (λ r : Clean, signed r) <$> clean_of df = sort_values (λ s : Signed, date s) df.
Proof.
  unfold clean_of.
  rewrite (list_fmap_compose enriched signed), enriched_add_running_balance.
  rewrite (sort_values_fmap add_date_features (λ s : Signed, date s)) by done.
  rewrite <-list_fmap_compose. apply list_fmap_id.
Qed.

(** ** C3: ties in the date sort *)

Example same_day_order :
  (λ r : Clean, idx r) <$> clean_of (filtered same_day_raw)
  = [0; 15; 14; 13; 12; 11; 10; 9; 8; 7; 6; 5; 4; 3; 2; 1; 16; 17]%nat.
Proof. vm_compute. reflexivity. Qed.




(** ** C10: the amount column *)

Lemma dropna_from_complete i dates raw k rr d a t :
  raw !! k = Some rr → dates !! k = Some (Some d) →
  raw_amount rr = Some a → raw_type rr = Some t →
  mkTxn (i + k) d a t ∈ dropna_from i dates raw.
Proof.
  revert i raw k. induction dates as [|d0 dates IH]; intros i [|r0 raw] k; try done.
  destruct k as [|k]; simpl.
  - intros [= ->] [= ->] -> ->. rewrite Nat.add_0_r. left.
  - intros Hr Hd Ha Ht.
    assert (mkTxn (i + S k) d a t ∈ dropna_from (S i) dates raw) as Hin.
    { replace (i + S k)%nat with (S i + k)%nat by lia. by eapply IH. }
    destruct d0; [|done]. destruct (raw_amount r0); [|done].
    destruct (raw_type r0); [|done]. by right.
Qed.

Lemma clean_of_complete df (s : Signed) :
  s ∈ df → ∃ r : Clean, r ∈ clean_of df ∧ enriched r = add_date_features s.
Proof.
  intros Hs. unfold clean_of.
  set (sorted := sort_values _ _).
  assert (add_date_features s ∈ sorted) as He.
  { unfold sorted. rewrite sort_values_Permutation. by apply list_elem_of_fmap_2. }
  rewrite <-(enriched_add_running_balance sorted) in He.
  apply list_elem_of_fmap in He as (r & Hr & Hin). eauto.
Qed.

(** C10: a row of the clean table carries the amount of the input row it
    stems from, and every input row that passes the filter (resolved date,
    amount and type present) is in the clean table with its amount. *)
Theorem amount_is_unchanged raw clean ms :
  main raw = Emitted clean ms →
  (∀ r : Clean, r ∈ clean →
     ∃ rr, raw !! idx r = Some rr ∧ raw_amount rr = Some (amount r))
  ∧ (∀ i rr d a t,
       raw !! i = Some rr →
       convert_dates (raw_date <$> raw) !! i = Some (Some d) →
       raw_amount rr = Some a → raw_type rr = Some t →
       ∃ r : Clean, r ∈ clean ∧ idx r = i ∧ amount r = a).
Proof.
  intros [-> _]%main_inv. split.
  - intros r (rr & t0 & Hrr & _ & Ha & _)%clean_origin. eauto.
  - intros i rr d a t Hrr Hd Ha Ht.
    pose proof (dropna_from_complete 0 _ _ _ _ _ _ _ Hrr Hd Ha Ht) as Hin.
    apply (list_elem_of_fmap_2 normalize_type), (list_elem_of_fmap_2 sign) in Hin.
    apply clean_of_complete in Hin as (r & Hr & Her).
    exists r. split; [done|]. by rewrite Her.
Qed.

Lemma amount_is_unchanged_witness :
  (∀ r : Clean, r ∈ sample_clean →
     ∃ rr, sample_raw !! idx r = Some rr ∧ raw_amount rr = Some (amount r))
  ∧ (∀ i rr d a t,
       sample_raw !! i = Some rr →
       convert_dates (raw_date <$> sample_raw) !! i = Some (Some d) →
       raw_amount rr = Some a → raw_type rr = Some t →
       ∃ r : Clean, r ∈ sample_clean ∧ idx r = i ∧ amount r = a).
Proof.
  apply (amount_is_unchanged sample_raw sample_clean (groupby_agg sample_clean)).
  reflexivity.
Defined.

(** ** C7: running the pipeline on its own clean table *)

Example isoformat_sample : isoformat (mkTs 2024 1 5) = "2024-01-05".
Proof. reflexivity. Qed.

Lemma split_no_sep sep s : has_char sep s = false → Py.split sep s = [s].
Proof.
  induction s as [|c s IH]; simpl; [done|].
  intros [Hc Hs]%orb_false_elim. apply bool_decide_eq_false in Hc.
  rewrite decide_False by done. by rewrite IH.
Qed.

Lemma split_app_sep sep s1 s2 :
  has_char sep s1 = false →
  Py.split sep (s1 +:+ String sep s2) = s1 :: Py.split sep s2.
Proof.
  induction s1 as [|c s1 IH]; simpl.
  - intros _. by rewrite decide_True.
  - intros [Hc Hs]%orb_false_elim. apply bool_decide_eq_false in Hc.
    rewrite decide_False by done. by rewrite IH.
Qed.

Lemma range_check (P : Z → bool) (n : Z) :
  forallb P (seqZ 0 n) = true → ∀ z, 0 ≤ z < n → P z = true.
Proof.
  intros H z Hz. rewrite forallb_forall in H.
  apply H, list_elem_of_In, elem_of_seqZ. lia.
Qed.

Lemma pad4_number y :
  0 ≤ y ≤ 9999 → has_char "-" (pad4 y) = false ∧ Py.number 4 4 (pad4 y) = Some y.
Proof.
  intros Hy.
  pose proof (range_check
    (λ y, negb (has_char "-" (pad4 y)) && bool_decide (Py.number 4 4 (pad4 y) = Some y))
    10000) as H.
  specialize (H ltac:(vm_compute; reflexivity) y ltac:(lia)).
  apply andb_true_iff in H as [H1 H2].
  apply negb_true_iff in H1. by apply bool_decide_eq_true in H2.
Qed.

Lemma pad2_number n :
  0 ≤ n ≤ 99 → has_char "-" (pad2 n) = false ∧ Py.number 1 2 (pad2 n) = Some n.
Proof.
  intros Hn.
  pose proof (range_check
    (λ n, negb (has_char "-" (pad2 n)) && bool_decide (Py.number 1 2 (pad2 n) = Some n))
    100) as H.
  specialize (H ltac:(vm_compute; reflexivity) n ltac:(lia)).
  apply andb_true_iff in H as [H1 H2].
  apply negb_true_iff in H1. by apply bool_decide_eq_true in H2.
Qed.

Lemma valid_date_range y m d :
  valid_date y m d = true → 1 ≤ m ≤ 12 ∧ 1 ≤ d ≤ 31.
Proof.
  unfold valid_date, days_in_month. intros H.
  repeat (apply andb_true_iff in H as [H ?]).
  repeat match goal with
         | H : (_ <=? _) = true |- _ => apply Z.leb_le in H
         end.
  split; [lia|]. split; [lia|].
  destruct (m =? 2); [destruct (is_leap y); lia|].
  destruct (_ || _); lia.
Qed.

(** Reading back what [to_csv] wrote. *)
Lemma read_text_isoformat t :
  well_formed t →
  read_text (isoformat t) = Some (IsoText (ts_year t) (ts_month t) (ts_day t)).
Proof.
  destruct t as [y m d]. intros [Hv Hy]. simpl in *.
  apply valid_date_range in Hv as [Hm Hd].
  destruct (pad4_number y Hy) as [Hy1 Hy2].
  destruct (pad2_number m ltac:(lia)) as [Hm1 Hm2].
  destruct (pad2_number d ltac:(lia)) as [Hd1 Hd2].
  unfold read_text, isoformat. cbn [ts_year ts_month ts_day].
  rewrite (split_app_sep _ _ _ Hy1), (split_app_sep _ _ _ Hm1), (split_no_sep _ _ Hd1).
  by rewrite Hy2, Hm2, Hd2.
Qed.

(** *** Parsed dates are well formed *)

Lemma digit_range c d : Py.digit c = Some d → 0 ≤ d ≤ 9.
Proof.
  unfold Py.digit, Py.isdigit.
  destruct (Z.leb_spec 48 (Py.code c)), (Z.leb_spec (Py.code c) 57);
    simpl; intros [= <-]; lia.
Qed.

Lemma number_4_range s y : Py.number 4 4 s = Some y → 0 ≤ y ≤ 9999.
Proof.
  unfold Py.number. case_bool_decide as Hlen; [|done].
  destruct s as [|c1 [|c2 [|c3 [|c4 [|c5 s]]]]]; simpl in Hlen; try lia.
  simpl.
  destruct (Py.digit c1) as [d1|] eqn:H1; [|done].
  destruct (Py.digit c2) as [d2|] eqn:H2; [|done].
  destruct (Py.digit c3) as [d3|] eqn:H3; [|done].
  destruct (Py.digit c4) as [d4|] eqn:H4; [|done].
  apply digit_range in H1, H2, H3, H4. intros [= <-]. lia.
Qed.

Lemma read_text_year s :
  match read_text s with
  | Some (IsoText y _ _) | Some (SlashText _ _ y) => 0 ≤ y ≤ 9999
  | None => True
  end.
Proof.
  unfold read_text.
  repeat case_match; simplify_eq; eauto using number_4_range.
Qed.

Lemma make_date_well_formed y m d t :
  0 ≤ y ≤ 9999 → make_date y m d = Some t → well_formed t.
Proof.
  unfold make_date. intros Hy. destruct (valid_date y m d) eqn:Hv; [|done].
  intros [= <-]. by split.
Qed.

Lemma strptime_well_formed f s t : strptime f s = Some t → well_formed t.
Proof.
  unfold strptime. pose proof (read_text_year s) as Hy.
  destruct f, (read_text s) as [[]|]; try done; by apply make_date_well_formed.
Qed.

Lemma parse_datetime_string_well_formed dayfirst s t :
  parse_datetime_string dayfirst s = Some t → well_formed t.
Proof.
  unfold parse_datetime_string. pose proof (read_text_year s) as Hy.
  destruct (read_text s) as [[]|]; try done.
  - by apply make_date_well_formed.
  - repeat case_match; try done; by apply make_date_well_formed.
Qed.

Lemma to_datetime_well_formed format dayfirst cells i t :
  to_datetime format dayfirst (ObjectCol cells) !! i = Some (Some t) → well_formed t.
Proof.
  unfold to_datetime.
  destruct format; [destruct (_ ≫= _)|];
    rewrite list_lookup_fmap; destruct (cells !! i) as [[s|]|]; simpl;
    intros [= H]; eauto using strptime_well_formed, parse_datetime_string_well_formed.
Qed.

Lemma clean_dates_well_formed raw (r : Clean) :
  r ∈ clean_of (filtered raw) → well_formed (date r).
Proof.
  intros (rr & t0 & _ & Hd & _)%clean_origin.
  rewrite convert_dates_primary in Hd. by eapply to_datetime_well_formed.
Qed.

(** *** The second run *)

Lemma strptime_isoformat t : well_formed t → strptime Fmt_Ymd (isoformat t) = Some t.
Proof.
  intros Hwf. unfold strptime. rewrite read_text_isoformat by done.
  destruct Hwf as [Hv _]. unfold make_date. rewrite Hv. by destruct t.
Qed.

Lemma convert_dates_isoformat (ts : list Timestamp) :
  Forall well_formed ts →
  convert_dates ((λ t, Some (isoformat t)) <$> ts) = Some <$> ts.
Proof.
  intros Hwf. rewrite convert_dates_primary. unfold to_datetime.
  destruct ts as [|t0 ts]; [done|].
  assert (first_non_null ((λ t, Some (isoformat t)) <$> t0 :: ts)
            ≫= guess_datetime_format false = Some Fmt_Ymd) as ->.
  { apply Forall_cons in Hwf as [H0 _]. simpl. unfold guess_datetime_format.
    rewrite read_text_isoformat by done. by destruct H0 as [-> _]. }
  rewrite <-list_fmap_compose. apply Forall_fmap_ext.
  eapply Forall_impl; [exact Hwf|]. intros t Ht. simpl. by apply strptime_isoformat.
Qed.








Example rerun_sample :
  running_balance <$> sample_clean = [100; 60]
  ∧ running_balance <$> clean_of (filtered (rerun_input "Income" sample_clean))
    = [100; 140].
Proof. split; vm_compute; reflexivity. Qed.



(** With eighteen rows of one day the second run orders the ties anew, and
    the balances differ although no amount is negative. *)
Example rerun_same_day :
  running_balance
    <$> clean_of (filtered (rerun_input "Income" (clean_of (filtered same_day_raw))))
  ≠ running_balance <$> clean_of (filtered same_day_raw).
Proof. vm_compute. discriminate. Qed.

(** * Further properties of the pipeline *)

(** ** The filter keeps each complete row once *)









(** ** The groups of the monthly summary *)

Lemma key_ltb_trichotomy a b : key_ltb a b = false → key_ltb b a = false → a = b.
Proof.
  destruct a as [y m], b as [y' m']. unfold key_ltb. simpl.
  intros H1 H2. f_equal;
    destruct (Z.ltb_spec y y'), (Z.ltb_spec y' y), (Z.eqb_spec y y'), (Z.eqb_spec y' y),
      (Z.ltb_spec m m'), (Z.ltb_spec m' m); simpl in *; try done; lia.
Qed.

Lemma key_ltb_irrefl a : key_ltb a a = false.
Proof. unfold key_ltb. by rewrite !Z.ltb_irrefl, Z.eqb_refl. Qed.

Lemma elem_of_insert_key x k ks : x ∈ insert_key k ks ↔ x = k ∨ x ∈ ks.
Proof.
  induction ks as [|k' ks IH]; simpl.
  - rewrite list_elem_of_singleton, elem_of_nil. tauto.
  - destruct (key_ltb k k') eqn:H1; [by rewrite !elem_of_cons|].
    destruct (key_ltb k' k) eqn:H2.
    + rewrite !elem_of_cons, IH. tauto.
    + rewrite (key_ltb_trichotomy _ _ H1 H2), elem_of_cons. tauto.
Qed.

Lemma elem_of_group_keys df k :
  k ∈ group_keys df ↔ ∃ r : Clean, r ∈ df ∧ group_key r = k.
Proof.
  unfold group_keys. induction df as [|r df IH]; simpl.
  - rewrite elem_of_nil. split; [done|]. by intros (r & ?%elem_of_nil & _).
  - rewrite elem_of_insert_key, IH. split.
    + intros [->|(r' & Hr' & <-)]; [exists r|exists r']; split; try done; by constructor.
    + intros (r' & [->|Hr']%elem_of_cons & <-); [by left|right; eauto].
Qed.

Lemma insert_key_Sorted k ks :
  Sorted (λ a b, key_ltb a b = true) ks →
  Sorted (λ a b, key_ltb a b = true) (insert_key k ks).
Proof.
  induction 1 as [|k' ks Hks IH Hhd]; simpl.
  { repeat constructor. }
  destruct (key_ltb k k') eqn:H1.
  { constructor; [by constructor|]. by constructor. }
  destruct (key_ltb k' k) eqn:H2; [|by constructor].
  constructor; [done|].
  destruct Hhd as [|k'' ks' Hk'']; simpl; [by constructor|].
  destruct (key_ltb k k''); [by constructor|].
  destruct (key_ltb k'' k); by constructor.
Qed.

Lemma group_keys_Sorted df : Sorted (λ a b, key_ltb a b = true) (group_keys df).
Proof.
  unfold group_keys. induction df as [|r df IH]; simpl; [constructor|].
  by apply insert_key_Sorted.
Qed.

Lemma key_ltb_month_before df k k' :
  key_ltb k k' = true → month_before (aggregate df k) (aggregate df k').
Proof.
  destruct k as [y m], k' as [y' m']. unfold key_ltb, month_before. simpl.
  destruct (Z.ltb_spec y y'), (Z.eqb_spec y y'), (Z.ltb_spec m m'); simpl; try done; lia.
Qed.

Lemma month_before_trans : Transitive month_before.
Proof. unfold month_before. intros g h k ??. lia. Qed.

(** X2: the rows of the monthly summary are in strictly ascending order of
    (year, month); so no month has two rows. *)
Theorem monthly_summary_is_ascending raw :
  ∃ clean ms, main raw = Emitted clean ms ∧ StronglySorted month_before ms.
Proof.
  exists (clean_of (filtered raw)), (groupby_agg (clean_of (filtered raw))).
  split; [apply main_emits|].
  apply Sorted_StronglySorted; [apply month_before_trans|]. unfold groupby_agg.
  eapply Sorted_fmap; [|apply group_keys_Sorted].
  intros k k'. apply key_ltb_month_before.
Qed.

Lemma key_ltb_trans : Transitive (λ a b, key_ltb a b = true).
Proof.
  intros [y m] [y' m'] [y'' m'']. unfold key_ltb. simpl. intros H1 H2.
  destruct (Z.ltb_spec y y'), (Z.eqb_spec y y'), (Z.ltb_spec m m'),
    (Z.ltb_spec y' y''), (Z.eqb_spec y' y''), (Z.ltb_spec m' m''),
    (Z.ltb_spec y y''), (Z.eqb_spec y y''), (Z.ltb_spec m m'');
    simpl in *; try done; lia.
Qed.

Lemma group_keys_NoDup df : NoDup (group_keys df).
Proof.
  assert (StronglySorted (λ a b, key_ltb a b = true) (group_keys df)) as H.
  { apply Sorted_StronglySorted; [apply key_ltb_trans|apply group_keys_Sorted]. }
  induction H as [|k ks Hks IH Hk]; constructor; [|done].
  intros Hin. rewrite Forall_forall in Hk. specialize (Hk k Hin).
  by rewrite key_ltb_irrefl in Hk.
Qed.

Lemma group_values_length (df : list Clean) (r : Clean) :
  length (group_values df (group_key r))
  = length (filter (λ r' : Clean, year r' = year r ∧ month r' = month r) df).
Proof.
  unfold group_values. rewrite length_fmap.
  induction df as [|r' df IH]; [done|].
  rewrite filter_cons. cbn [List.filter].
  destruct (decide (group_key r' = group_key r)) as [E|E].
  - rewrite bool_decide_eq_true_2 by done.
    rewrite decide_True by (by injection E). simpl. by rewrite IH.
  - rewrite bool_decide_eq_false_2 by done.
    rewrite decide_False; [done|].
    intros [??]. apply E. unfold group_key. congruence.
Qed.

(** X3: the monthly summary has a row for a month exactly when the clean
    table has a row of that month, and [transaction_count] is the number
    of these rows, at least one. *)
Theorem monthly_summary_covers_the_months raw :
  ∃ clean ms, main raw = Emitted clean ms
    ∧ (∀ r : Clean, r ∈ clean → ∃ g, g ∈ ms ∧ s_year g = year r ∧ s_month g = month r)
    ∧ (∀ g, g ∈ ms →
         transaction_count g
         = length (filter (λ r : Clean, year r = s_year g ∧ month r = s_month g) clean)
         ∧ (1 ≤ transaction_count g)%nat).
Proof.
  exists (clean_of (filtered raw)), (groupby_agg (clean_of (filtered raw))).
  set (clean := clean_of (filtered raw)).
  split; [apply main_emits|]. split.
  - intros r Hr. exists (aggregate clean (group_key r)). split; [|done].
    apply list_elem_of_fmap_2, elem_of_group_keys. eauto.
  - intros g (k & -> & Hk)%list_elem_of_fmap.
    apply elem_of_group_keys in Hk as (r & Hr & <-).
    pose proof (group_values_length clean r) as Hcount.
    simpl. split; [done|]. rewrite Hcount.
    assert (r ∈ filter (λ r' : Clean, year r' = year r ∧ month r' = month r) clean) as Hin.
    { by apply list_elem_of_filter. }
    destruct (filter _ clean); [by apply elem_of_nil in Hin|simpl; lia].
Qed.

(** ** Totals over the months *)

Lemma sum_app (s1 s2 : list Z) : sum (s1 ++ s2) = sum s1 + sum s2.
Proof. induction s1 as [|x s1 IH]; [done|]. cbn [app]. rewrite !sum_cons, IH. lia. Qed.


Lemma sum_fmap_add {A} (f g : A → Z) (l : list A) :
  sum ((λ x, f x + g x) <$> l) = sum (f <$> l) + sum (g <$> l).
Proof.
  induction l as [|x l IH]; [done|]. rewrite !fmap_cons, !sum_cons, IH. lia.
Qed.

Lemma sum_fmap_zero {A} (l : list A) : sum ((λ _, 0) <$> l) = 0.
Proof. induction l as [|x l IH]; [done|]. by rewrite fmap_cons, sum_cons, IH. Qed.

Lemma sum_fmap_one {A} (l : list A) : sum ((λ _, 1) <$> l) = Z.of_nat (length l).
Proof.
  induction l as [|x l IH]; [done|]. rewrite fmap_cons, sum_cons, IH. simpl. lia.
Qed.

(** A value counted under one key of a duplicate-free list is counted once. *)
Lemma sum_indicator (k0 : Z * Z) (x : Z) (ks : list (Z * Z)) :
  NoDup ks → k0 ∈ ks →
  sum ((λ k, if bool_decide (k0 = k) then x else 0) <$> ks) = x.
Proof.
  induction 1 as [|k ks Hk Hks IH]; [by intros ?%elem_of_nil|].
  rewrite fmap_cons, sum_cons. intros [->|Hin]%elem_of_cons.
  - rewrite bool_decide_eq_true_2 by done.
    assert (sum ((λ k0, if bool_decide (k = k0) then x else 0) <$> ks) = 0) as ->; [|lia].
    etrans; [|apply (sum_fmap_zero ks)]. f_equal. apply list_fmap_ext.
    intros ? k' Hk'%list_elem_of_lookup_2. rewrite bool_decide_eq_false_2; [done|].
    by intros ->.
  - rewrite bool_decide_eq_false_2 by (by intros ->). rewrite IH by done. lia.
Qed.

(** Summing group by group is summing over the frame. *)
Lemma sum_by_group (f : Clean → Z) (df : list Clean) (ks : list (Z * Z)) :
  NoDup ks → (∀ r : Clean, r ∈ df → group_key r ∈ ks) →
  sum ((λ k, sum (f <$> List.filter (λ r : Clean, bool_decide (group_key r = k)) df))
         <$> ks)
  = sum (f <$> df).
Proof.
  intros Hnd. induction df as [|r df IH]; intros Hin.
  { apply sum_fmap_zero. }
  rewrite fmap_cons, sum_cons, <-IH by (intros r' Hr'; apply Hin; by right).
  rewrite <-(sum_indicator (group_key r) (f r) ks) at 1
    by (done || apply Hin; by left).
  rewrite <-sum_fmap_add. f_equal. apply list_fmap_ext. intros ? k _.
  cbn [List.filter]. by case_bool_decide.
Qed.


Lemma sum_transaction_count df :
  sum ((λ g, Z.of_nat (transaction_count g)) <$> groupby_agg df) = Z.of_nat (length df).
Proof.
  unfold groupby_agg. rewrite <-list_fmap_compose.
  rewrite <-(sum_fmap_one df).
  rewrite <-(sum_by_group (λ _, 1) df (group_keys df)).
  - f_equal. apply list_fmap_ext. intros ? k _. simpl.
    unfold group_values. by rewrite length_fmap, sum_fmap_one.
  - apply group_keys_NoDup.
  - intros r Hr. apply elem_of_group_keys. eauto.
Qed.


(** X4: the transaction counts of the monthly summary add up to the number
    of rows of the clean table. *)
Theorem transaction_counts_add_up raw :
  ∃ clean ms, main raw = Emitted clean ms
    ∧ sum_list (transaction_count <$> ms) = length clean.
Proof.
  exists (clean_of (filtered raw)), (groupby_agg (clean_of (filtered raw))).
  split; [apply main_emits|].
  apply Nat2Z.inj. rewrite <-sum_transaction_count.
  generalize (groupby_agg (clean_of (filtered raw))). intros ms.
  induction ms as [|g ms IH]; [done|].
  rewrite !fmap_cons, sum_cons. cbn [sum_list sum_list_with]. unfold id.
  rewrite Nat2Z.inj_add. f_equal. exact IH.
Qed.


Lemma sum_nonneg (s : list Z) : Forall (λ x, 0 ≤ x) s → 0 ≤ sum s.
Proof. induction 1; rewrite ?sum_cons; [done|lia]. Qed.


(** ** The calendar columns *)


Lemma weekday_range t : 0 ≤ weekday t < 7.
Proof. unfold weekday. apply Z.mod_pos_bound. lia. Qed.

Lemma day_name_lookup t : day_names !! Z.to_nat (weekday t) = Some (day_name t).
Proof.
  pose proof (weekday_range t).
  unfold day_name. fold (weekday t). apply list_lookup_lookup_total_lt. simpl. lia.
Qed.


(** The day count goes up by one from the last day of a month to the first
    day of the next. *)
Lemma days_from_civil_month_end y m :
  0 ≤ y ≤ 9999 → 1 ≤ m ≤ 12 →
  (if m <? 12 then days_from_civil y (m + 1) 1 else days_from_civil (y + 1) 1 1)
  = days_from_civil y m (days_in_month y m) + 1.
Proof.
  intros Hy Hm.
  pose proof (range_check
    (λ y, forallb (λ m,
       (if m <? 12 then days_from_civil y (m + 1) 1 else days_from_civil (y + 1) 1 1)
       =? days_from_civil y m (days_in_month y m) + 1) (seqZ 1 12))
    10000) as H.
  specialize (H ltac:(vm_compute; reflexivity) y ltac:(lia)).
  rewrite forallb_forall in H. apply Z.eqb_eq, H, list_elem_of_In, elem_of_seqZ. lia.
Qed.

Lemma days_from_civil_next_day t :
  well_formed t →
  days_from_civil (ts_year (next_day t)) (ts_month (next_day t)) (ts_day (next_day t))
  = days_from_civil (ts_year t) (ts_month t) (ts_day t) + 1.
Proof.
  destruct t as [y m d]. intros [Hv Hy]. cbn [ts_year ts_month ts_day] in *.
  pose proof (valid_date_range _ _ _ Hv) as [Hm _].
  unfold valid_date in Hv. unfold next_day. cbn [ts_year ts_month ts_day].
  destruct (Z.ltb_spec d (days_in_month y m)) as [Hd|Hd].
  - cbn [ts_year ts_month ts_day]. unfold days_from_civil. cbv zeta. lia.
  - assert (d = days_in_month y m) as ->.
    { repeat (apply andb_true_iff in Hv as [Hv ?]).
      repeat match goal with
             | H : (_ <=? _) = true |- _ => apply Z.leb_le in H
             end. lia. }
    rewrite <-(days_from_civil_month_end y m) by done.
    by destruct (m <? 12).
Qed.

Lemma days_in_month_pos y m : 28 ≤ days_in_month y m.
Proof.
  unfold days_in_month. destruct (m =? 2); [destruct (is_leap y); lia|].
  destruct (_ || _); lia.
Qed.

Lemma valid_date_next_day t :
  well_formed t →
  valid_date (ts_year (next_day t)) (ts_month (next_day t)) (ts_day (next_day t)) = true.
Proof.
  destruct t as [y m d]. intros [Hv Hy]. cbn [ts_year ts_month ts_day] in *.
  pose proof (valid_date_range _ _ _ Hv) as [Hm Hd1].
  unfold next_day. cbn [ts_year ts_month ts_day].
  destruct (Z.ltb_spec d (days_in_month y m)) as [Hd|Hd]; [|destruct (Z.ltb_spec m 12)];
    cbn [ts_year ts_month ts_day]; unfold valid_date;
    repeat (apply andb_true_iff; split); apply Z.leb_le; try lia.
  - pose proof (days_in_month_pos y (m + 1)). lia.
  - pose proof (days_in_month_pos (y + 1) 1). lia.
Qed.

(** X8: the day names follow the calendar: the day after a date is a
    calendar date again, and its name is the next one in the week, Monday
    following Sunday. *)
Theorem day_name_follows_the_calendar t :
  well_formed t →
  valid_date (ts_year (next_day t)) (ts_month (next_day t)) (ts_day (next_day t)) = true
  ∧ weekday (next_day t) = (weekday t + 1) mod 7
  ∧ day_names !! Z.to_nat ((weekday t + 1) mod 7) = Some (day_name (next_day t)).
Proof.
  intros Hwf.
  assert (weekday (next_day t) = (weekday t + 1) mod 7) as Hnext.
  { unfold weekday. rewrite days_from_civil_next_day by done.
    rewrite Z.add_mod_idemp_l by lia. f_equal. lia. }
  split; [by apply valid_date_next_day|]. split; [done|].
  rewrite <-Hnext. apply day_name_lookup.
Qed.

Lemma day_name_follows_the_calendar_witness :
  weekday (mkTs 2024 2 29) = 3 ∧ next_day (mkTs 2024 2 29) = mkTs 2024 3 1
  ∧ day_names !! 4%nat = Some (day_name (mkTs 2024 3 1)).
Proof.
  split; [reflexivity|]. split; [reflexivity|].
  apply (day_name_follows_the_calendar (mkTs 2024 2 29)).
  split; [reflexivity|simpl; lia].
Defined.

(** ** One format for the whole column *)

Lemma guess_of_iso s f :
  iso_layout s → guess_datetime_format false s = Some f → f = Fmt_Ymd.
Proof.
  intros (y & m & d & Hs). unfold guess_datetime_format. rewrite Hs.
  destruct (valid_date y m d); congruence.
Qed.

Lemma guess_of_slash s f :
  slash_layout s → guess_datetime_format false s = Some f → f = Fmt_mdY ∨ f = Fmt_dmY.
Proof.
  intros (a & b & y & Hs). unfold guess_datetime_format. rewrite Hs.
  destruct (valid_date y a b); [intros [= <-]; by left|].
  destruct (valid_date y b a); [intros [= <-]; by right|done].
Qed.

Lemma convert_dates_lookup cells s0 f i s :
  first_non_null cells = Some s0 → guess_datetime_format false s0 = Some f →
  cells !! i = Some (Some s) →
  convert_dates cells !! i = Some (strptime f s).
Proof.
  intros H0 Hf Hs. rewrite convert_dates_primary. unfold to_datetime.
  rewrite H0. cbn [mbind option_bind]. rewrite Hf.
  by rewrite list_lookup_fmap, Hs.
Qed.

(** X9: the layout of the first non-empty date cell is the layout of the
    column: when that cell is a date, a row whose date is written in the
    other layout is not in the clean table. *)
Theorem other_layout_is_dropped raw s0 f i rr s :
  first_non_null (raw_date <$> raw) = Some s0 →
  guess_datetime_format false s0 = Some f →
  raw !! i = Some rr → raw_date rr = Some s →
  (iso_layout s0 ∧ slash_layout s) ∨ (slash_layout s0 ∧ iso_layout s) →
  convert_dates (raw_date <$> raw) !! i = Some None
  ∧ ∃ clean ms, main raw = Emitted clean ms ∧ ∀ r : Clean, r ∈ clean → idx r ≠ i.
Proof.
  intros H0 Hf Hrr Hs Hlay.
  assert (convert_dates (raw_date <$> raw) !! i = Some None) as Hnat.
  { assert ((raw_date <$> raw) !! i = Some (Some s)) as Hcell.
    { rewrite list_lookup_fmap, Hrr. simpl. by rewrite Hs. }
    rewrite (convert_dates_lookup _ s0 f i s H0 Hf Hcell).
    f_equal. unfold strptime.
    destruct Hlay as [[H1 (a & b & y & ->)]|[H1 (y & m & d & ->)]].
    - by rewrite (guess_of_iso _ _ H1 Hf).
    - by destruct (guess_of_slash _ _ H1 Hf) as [->| ->]. }
  split; [done|].
  exists (clean_of (filtered raw)), (groupby_agg (clean_of (filtered raw))).
  split; [apply main_emits|].
  intros r (rr' & t0 & _ & Hd & _)%clean_origin Hi. rewrite Hi in Hd. congruence.
Qed.

Lemma other_layout_is_dropped_witness :
  convert_dates
    (raw_date <$> [row "2024-01-05" 100 "Income"; row "03/04/2024" 40 "Expense"])
    !! 1%nat = Some None
  ∧ ∃ clean ms,
      main [row "2024-01-05" 100 "Income"; row "03/04/2024" 40 "Expense"]
      = Emitted clean ms ∧ ∀ r : Clean, r ∈ clean → idx r ≠ 1%nat.
Proof.
  apply (other_layout_is_dropped
           [row "2024-01-05" 100 "Income"; row "03/04/2024" 40 "Expense"]
           "2024-01-05" Fmt_Ymd 1 (row "03/04/2024" 40 "Expense") "03/04/2024").
  - reflexivity.
  - reflexivity.
  - reflexivity.
  - reflexivity.
  - left. split; [by exists 2024, 1, 5|by exists 3, 4, 2024].
Defined.

(** ** What is written is read back *)

(** X10: the dates of the clean table, written as [to_csv] writes them, are
    resolved to themselves by the date conversion: no row of the clean
    table would be lost, or moved to another day, on reading it back. *)
Theorem written_dates_are_read_back raw :
  ∃ clean ms, main raw = Emitted clean ms
    ∧ convert_dates ((λ r : Clean, Some (isoformat (date r))) <$> clean)
      = (λ r : Clean, Some (date r)) <$> clean.
Proof.
  exists (clean_of (filtered raw)), (groupby_agg (clean_of (filtered raw))).
  split; [apply main_emits|].
  rewrite (list_fmap_compose (λ r : Clean, date r) (λ t, Some (isoformat t))).
  rewrite (list_fmap_compose (λ r : Clean, date r) Some).
  apply convert_dates_isoformat, Forall_fmap, Forall_forall.
  intros r Hr. by eapply clean_dates_well_formed.
Qed.

(** ** The summary does not depend on the order of the rows *)










(** ** The index sort puts the keys in order *)

(** Arithmetic with halves: [lia] with the division equations of the
    halved terms. *)
Ltac halves :=
  repeat match goal with
  | |- context [(?c / 2)%nat] =>
      lazymatch goal with
      | _ : c = (2 * (c / 2) + c mod 2)%nat |- _ => fail
      | _ => pose proof (Nat.div_mod_eq c 2);
             pose proof (Nat.mod_upper_bound c 2 ltac:(lia))
      end
  | _ : context [(?c / 2)%nat] |- _ =>
      lazymatch goal with
      | _ : c = (2 * (c / 2) + c mod 2)%nat |- _ => fail
      | _ => pose proof (Nat.div_mod_eq c 2);
             pose proof (Nat.mod_upper_bound c 2 ltac:(lia))
      end
  end.

Ltac hlia := halves; lia.


Section ArgsortSorted.
Context {K : Type} (less : K → K → bool) (v : list K).
Hypothesis less_irrefl : ∀ k, less k k = false.
Hypothesis less_trans : ∀ a b c, less a b = true → less b c = true → less a c = true.
Hypothesis less_negtrans :
  ∀ a b c, less a b = false → less b c = false → less a c = false.

Local Abbreviation lv := (Npy.less_val less v).
Local Abbreviation valid := (Range.valid v).
Local Abbreviation le := (Range.le less v).
Local Abbreviation elems := Range.elems.
Local Abbreviation sorted := (Range.sorted less v).
Local Abbreviation frame := Range.frame.
Local Abbreviation heap := (Range.heap less v).
Local Abbreviation swap := Npy.swap.

Lemma le_refl x : le x x.
Proof. by apply less_val_irrefl. Qed.

Lemma lt_le x y : lv x y = true → le x y.
Proof.
  unfold Range.le, Npy.less_val. destruct (v !! x) as [kx|], (v !! y) as [ky|]; try done.
  intros H. destruct (less ky kx) eqn:E; [|done].
  pose proof (less_trans _ _ _ H E) as F. by rewrite less_irrefl in F.
Qed.

Lemma le_trans x y z : (y < length v)%nat → le x y → le y z → le x z.
Proof.
  unfold Range.le, Npy.less_val. intros [ky Hy]%lookup_lt_is_Some. rewrite Hy.
  destruct (v !! x) as [kx|], (v !! z) as [kz|]; try done. eauto.
Qed.

Lemma le_total x y : le x y ∨ le y x.
Proof.
  unfold Range.le. destruct (lv y x) eqn:E; [right|by left]. by apply lt_le.
Qed.

Lemma valid_lookup (a : list nat) k x : valid a → a !! k = Some x → (x < length v)%nat.
Proof. intros Ha Hk. exact (Forall_lookup_1 _ _ _ _ Ha Hk). Qed.

Lemma valid_Permutation (a a' : list nat) : a' ≡ₚ a → valid a → valid a'.
Proof. unfold Range.valid. by intros ->. Qed.

(** *** Ranges *)

Lemma frame_refl (a : list nat) lo hi : frame a a lo hi.
Proof. by intros k _. Qed.

Lemma frame_trans (a1 a2 a3 : list nat) lo hi :
  frame a1 a2 lo hi → frame a2 a3 lo hi → frame a1 a3 lo hi.
Proof. intros H1 H2 k Hk. by rewrite H2, H1. Qed.

Lemma frame_mono (a a' : list nat) lo hi lo' hi' :
  (lo' ≤ lo)%nat → (hi ≤ hi')%nat → frame a a' lo hi → frame a a' lo' hi'.
Proof. intros ?? H k Hk. apply H. lia. Qed.

(** A rearrangement within a range keeps what holds for the entries of the
    range. *)
Lemma elems_rearranged (a a' : list nat) lo hi (P : nat → Prop) :
  NoDup a → a' ≡ₚ a → frame a a' lo hi → elems a lo hi P → elems a' lo hi P.
Proof.
  intros Hnd Hp Hf HP k x Hk Hx.
  assert (x ∈ a) as [k' Hk']%list_elem_of_lookup_1.
  { rewrite <-Hp. by eapply list_elem_of_lookup_2. }
  destruct (decide (lo ≤ k' ≤ hi)%nat) as [Hin|Hout]; [by eapply HP|].
  assert (a' !! k' = Some x) as Hx' by (rewrite Hf; [done|lia]).
  assert (NoDup a') as Hnd' by (by rewrite Hp).
  pose proof (NoDup_lookup _ _ _ _ Hnd' Hx Hx'). lia.
Qed.

Lemma sorted_frame (a a' : list nat) lo hi lo' hi' :
  frame a a' lo' hi' → (hi < lo' ∨ hi' < lo)%nat → sorted a lo hi → sorted a' lo hi.
Proof.
  intros Hf Hd Hs i j x y Hi Hij Hj Hx Hy.
  rewrite Hf in Hx by lia. rewrite Hf in Hy by lia. by eapply Hs.
Qed.

Lemma elems_frame (a a' : list nat) lo hi lo' hi' (P : nat → Prop) :
  frame a a' lo' hi' → (hi < lo' ∨ hi' < lo)%nat → elems a lo hi P → elems a' lo hi P.
Proof.
  intros Hf Hd HP k x Hk Hx. rewrite Hf in Hx by lia. by eapply HP.
Qed.

(** Two sorted ranges around a pivot make a sorted range. *)
Lemma sorted_join (a : list nat) lo p hi vp :
  a !! p = Some vp → (vp < length v)%nat →
  sorted a lo (p - 1) → sorted a (p + 1) hi →
  elems a lo (p - 1) (λ x, le x vp) → elems a (p + 1) hi (λ y, le vp y) →
  sorted a lo hi.
Proof.
  intros Hp Hvp Hl Hr Hlo Hhi i j x y Hi Hij Hj Hx Hy.
  destruct (decide (j < p)%nat); [eapply Hl; [..|exact Hx|exact Hy]; lia|].
  destruct (decide (p < i)%nat); [eapply Hr; [..|exact Hx|exact Hy]; lia|].
  assert (le x vp) as Hxp.
  { destruct (decide (i = p)) as [->|]; [|eapply Hlo; [|exact Hx]; lia].
    rewrite Hp in Hx. injection Hx as ->. apply le_refl. }
  assert (le vp y) as Hpy.
  { destruct (decide (j = p)) as [->|]; [|eapply Hhi; [|exact Hy]; lia].
    rewrite Hp in Hy. injection Hy as ->. apply le_refl. }
  by eapply le_trans.
Qed.

(** *** Exchanges *)

Lemma swap_lookup_l (a : list nat) i j y :
  a !! j = Some y → (i < length a)%nat → swap a i j !! i = Some y.
Proof.
  intros Hj Hi. unfold Npy.swap. rewrite Hj.
  apply lookup_lt_is_Some in Hi as [x Hx]. rewrite Hx.
  apply list_lookup_insert_eq. rewrite length_insert. eauto using lookup_lt_Some.
Qed.

Lemma swap_frame (a : list nat) i j lo hi :
  (lo ≤ i ≤ hi)%nat → (lo ≤ j ≤ hi)%nat → frame a (swap a i j) lo hi.
Proof. intros Hi Hj k Hk. apply swap_lookup_ne; lia. Qed.


(** *** Insertion sort of a range *)

Local Abbreviation insert_shift := (Npy.insert_shift less v).
Local Abbreviation insertion_sort := (Npy.insertion_sort less v).
Local Abbreviation insert_desc := (Isort.insert_desc less v).
Local Abbreviation isort_desc := (Isort.isort_desc less v).

Lemma insert_shift_stop pl vi (a : list nat) pj :
  (pj ≤ pl)%nat → insert_shift pl vi a pj = <[pj := vi]> a.
Proof.
  intros Hpj. destruct pj as [|pk]; simpl; [done|].
  destruct (a !! pk); [|done]. by rewrite bool_decide_eq_false_2 by lia.
Qed.

(** The loop does not look below [pl]: a prefix up to there stays aside. *)
Lemma insert_shift_app pre pl vi (a : list nat) pj :
  insert_shift (length pre + pl) vi (pre ++ a) (length pre + pj)
  = pre ++ insert_shift pl vi a pj.
Proof.
  revert a. induction pj as [|pk IH]; intros a.
  - rewrite insert_shift_stop by lia. by rewrite insert_app_r.
  - rewrite Nat.add_succ_r. simpl.
    rewrite lookup_app_r by lia.
    replace (length pre + pk - length pre)%nat with pk by lia.
    destruct (a !! pk) as [x|]; [|by rewrite <-Nat.add_succ_r, insert_app_r].
    rewrite (bool_decide_ext (length pre + pl < S (length pre + pk))%nat (pl < S pk)%nat)
      by lia.
    destruct (_ && _); [|by rewrite <-Nat.add_succ_r, insert_app_r].
    rewrite <-Nat.add_succ_r, insert_app_r. apply IH.
Qed.

Lemma insertion_sort_app pre (a : list nat) pr :
  insertion_sort (pre ++ a) (length pre) (length pre + pr) = pre ++ insertion_sort a 0 pr.
Proof.
  unfold Npy.insertion_sort.
  replace (length pre + pr - length pre)%nat with pr by lia. rewrite Nat.sub_0_r.
  rewrite <-(Nat.add_1_r (length pre)), <-(fmap_add_seq (length pre) 1 pr).
  generalize (seq 1 pr). intros ps. revert a.
  induction ps as [|p ps IH]; intros a; [done|].
  rewrite fmap_cons. cbn [foldl].
  rewrite lookup_app_r by lia.
  replace (length pre + p - length pre)%nat with p by lia.
  destruct (a !! p) as [vi|]; [|apply IH].
  rewrite <-(Nat.add_0_r (length pre)) at 1. rewrite insert_shift_app. apply IH.
Qed.

Lemma insertion_sort_fold_suffix r rest post :
  foldl (λ a pi, match a !! pi with
                 | Some vi => insert_shift 0 vi a pi
                 | None => a
                 end)
        (reverse r ++ rest ++ post) (seq (length r) (length rest))
  = reverse (isort_desc r rest) ++ post.
Proof.
  revert r. induction rest as [|x rest IH]; intros r; [done|].
  cbn [length seq foldl app].
  rewrite list_lookup_middle by (by rewrite length_reverse).
  rewrite (insert_shift_prefix less v x r x (rest ++ post)).
  rewrite <-(insert_desc_length less v x r). apply IH.
Qed.

Lemma insertion_sort_middle pre x mid post :
  insertion_sort (pre ++ (x :: mid) ++ post) (length pre) (length pre + length mid)
  = pre ++ reverse (isort_desc [] (x :: mid)) ++ post.
Proof.
  rewrite insertion_sort_app. f_equal. unfold Npy.insertion_sort.
  rewrite Nat.sub_0_r. apply (insertion_sort_fold_suffix [x] mid post).
Qed.

Lemma insert_desc_Permutation x r : insert_desc x r ≡ₚ x :: r.
Proof.
  induction r as [|y r IH]; simpl; [done|].
  destruct (lv x y); [|done]. rewrite IH. apply perm_swap.
Qed.

Lemma isort_desc_Permutation r l : isort_desc r l ≡ₚ reverse l ++ r.
Proof.
  revert r. induction l as [|x l IH]; intros r; simpl; [done|].
  unfold Isort.isort_desc in *. simpl. rewrite IH, insert_desc_Permutation.
  by rewrite reverse_cons, <-app_assoc.
Qed.

Lemma insert_desc_StronglySorted x r :
  valid (x :: r) →
  StronglySorted (flip le) r → StronglySorted (flip le) (insert_desc x r).
Proof.
  intros Hv Hr. induction Hr as [|y r Hr IH Hy]; simpl.
  { repeat constructor. }
  apply Forall_cons in Hv as [Hx [Hy' Hv]%Forall_cons].
  destruct (lv x y) eqn:Hlt.
  - constructor; [apply IH; by constructor|].
    rewrite insert_desc_Permutation. constructor; [|done].
    by apply lt_le.
  - constructor; [by constructor|]. constructor; [done|].
    eapply Forall_impl; [exact Hy|]. intros z Hz. simpl in *.
    by apply (le_trans z y x).
Qed.

Lemma isort_desc_StronglySorted r l :
  valid (r ++ l) →
  StronglySorted (flip le) r → StronglySorted (flip le) (isort_desc r l).
Proof.
  revert r. induction l as [|x l IH]; intros r Hv Hr; simpl; [done|].
  apply IH.
  - unfold Range.valid in *. rewrite insert_desc_Permutation.
    by rewrite <-Permutation_middle in Hv.
  - apply insert_desc_StronglySorted; [|done].
    unfold Range.valid in *. rewrite <-Permutation_middle in Hv.
    apply Forall_cons in Hv as [Hx Hv]. apply Forall_app in Hv as [Hv _].
    by constructor.
Qed.

Lemma StronglySorted_reverse {A} (R : relation A) (l : list A) :
  StronglySorted (flip R) l → StronglySorted R (reverse l).
Proof.
  induction 1 as [|x l Hl IH Hx]; [constructor|].
  rewrite reverse_cons. apply StronglySorted_app_2; [|done|repeat constructor].
  intros y ? Hy ->%list_elem_of_singleton. rewrite elem_of_reverse in Hy.
  rewrite Forall_forall in Hx. by apply Hx.
Qed.

Lemma StronglySorted_lookup {A} (R : relation A) (l : list A) i j x y :
  StronglySorted R l → (i < j)%nat → l !! i = Some x → l !! j = Some y → R x y.
Proof.
  intros Hl. revert i j. induction Hl as [|z l Hl IH Hz]; intros i j Hij; [done|].
  destruct j as [|j]; [lia|]. destruct i as [|i]; simpl.
  - intros [= ->] Hy. rewrite Forall_forall in Hz.
    by eapply Hz, list_elem_of_lookup_2.
  - apply IH. lia.
Qed.

(** Insertion sort puts a range in order and leaves the rest in place. *)
Lemma insertion_sort_spec (a : list nat) pl pr :
  (pl ≤ pr)%nat → (pr < length a)%nat → valid a →
  sorted (insertion_sort a pl pr) pl pr ∧ frame a (insertion_sort a pl pr) pl pr.
Proof.
  intros Hpl Hpr Hv.
  assert (∃ pre x mid post, a = pre ++ (x :: mid) ++ post
            ∧ length pre = pl ∧ length mid = (pr - pl)%nat)
    as (pre & x & mid & post & -> & <- & Hmid).
  { destruct (lookup_lt_is_Some_2 a pl ltac:(lia)) as [x Hx].
    exists (take pl a), x, (take (pr - pl) (drop (S pl) a)),
      (drop (pr - pl) (drop (S pl) a)).
    split_and!.
    - cbn [app]. by rewrite take_drop, take_drop_middle.
    - rewrite length_take. lia.
    - rewrite length_take, length_drop. lia. }
  replace pr with (length pre + length mid)%nat by lia. clear Hpl Hpr Hmid.
  rewrite insertion_sort_middle.
  set (m' := reverse (isort_desc [] (x :: mid))).
  assert (m' ≡ₚ x :: mid) as Hperm.
  { unfold m'. rewrite reverse_Permutation, isort_desc_Permutation.
    by rewrite app_nil_r, reverse_Permutation. }
  assert (length m' = S (length mid)) as Hlen by (by rewrite Hperm).
  assert (StronglySorted le m') as Hss.
  { apply StronglySorted_reverse, isort_desc_StronglySorted; [|constructor].
    unfold Range.valid in *.
    apply Forall_app in Hv as [_ Hv]. by apply Forall_app in Hv as [Hv _]. }
  split.
  - intros i j xi yj Hi Hij Hj Hxi Hyj.
    rewrite lookup_app_r in Hxi by lia. rewrite lookup_app_l in Hxi by lia.
    rewrite lookup_app_r in Hyj by lia. rewrite lookup_app_l in Hyj by lia.
    apply (StronglySorted_lookup le m' (i - length pre) (j - length pre) xi yj Hss);
      [lia|done..].
  - intros k [Hk|Hk].
    + by rewrite !lookup_app_l by lia.
    + rewrite (lookup_app_r pre), (lookup_app_r m') by lia.
      rewrite (lookup_app_r pre), (lookup_app_r (x :: mid)) by (simpl; lia).
      by rewrite Hlen.
Qed.

(** *** Partitioning *)

Local Abbreviation median3 := (Npy.median3 less v).
Local Abbreviation scan_up := (Npy.scan_up less v).
Local Abbreviation scan_down := (Npy.scan_down less v).
Local Abbreviation partition_loop := (Npy.partition_loop less v).
Local Abbreviation partition := (Npy.partition less v).

(** One conditional exchange puts two positions in order. *)
Lemma order_pair (a : list nat) i j x y :
  i ≠ j → a !! i = Some x → a !! j = Some y →
  ∃ x' y', (if Npy.less_at less v a j i then swap a j i else a) !! i = Some x'
    ∧ (if Npy.less_at less v a j i then swap a j i else a) !! j = Some y'
    ∧ le x' y' ∧ ((x' = x ∧ y' = y) ∨ (x' = y ∧ y' = x))
    ∧ ∀ k, k ≠ i → k ≠ j →
        (if Npy.less_at less v a j i then swap a j i else a) !! k = a !! k.
Proof.
  intros Hne Hi Hj. unfold Npy.less_at. rewrite Hi, Hj.
  destruct (lv y x) eqn:Hlt.
  - exists y, x. split_and!.
    + apply swap_lookup_r; eauto using lookup_lt_Some.
    + apply swap_lookup_l; eauto using lookup_lt_Some.
    + by apply lt_le.
    + by right.
    + intros k ??. by apply swap_lookup_ne.
  - exists x, y. split_and!; try done. by left.
Qed.

Lemma median3_spec (a : list nat) pl pm pr :
  (pl < pm)%nat → (pm < pr)%nat → (pr < length a)%nat → valid a →
  ∃ x y z, median3 a pl pm pr !! pl = Some x
    ∧ median3 a pl pm pr !! pm = Some y
    ∧ median3 a pl pm pr !! pr = Some z
    ∧ le x y ∧ le y z
    ∧ frame a (median3 a pl pm pr) pl pr.
Proof.
  intros H1 H2 H3 Hv. unfold Npy.median3.
  destruct (lookup_lt_is_Some_2 a pl ltac:(lia)) as [x Hx].
  destruct (lookup_lt_is_Some_2 a pm ltac:(lia)) as [y Hy].
  destruct (lookup_lt_is_Some_2 a pr ltac:(lia)) as [z Hz].
  destruct (order_pair a pl pm x y ltac:(lia) Hx Hy)
    as (x1 & y1 & Hx1 & Hy1 & Hle1 & Hxy1 & Hf1).
  set (a1 := if Npy.less_at less v a pm pl then swap a pm pl else a) in *.
  assert (a1 !! pr = Some z) as Hz1 by (rewrite Hf1; [done|lia..]).
  destruct (order_pair a1 pm pr y1 z ltac:(lia) Hy1 Hz1)
    as (y2 & z2 & Hy2 & Hz2 & Hle2 & Hyz2 & Hf2).
  set (a2 := if Npy.less_at less v a1 pr pm then swap a1 pr pm else a1) in *.
  assert (a2 !! pl = Some x1) as Hx2 by (rewrite Hf2; [done|lia..]).
  destruct (order_pair a2 pl pm x1 y2 ltac:(lia) Hx2 Hy2)
    as (x3 & y3 & Hx3 & Hy3 & Hle3 & Hxy3 & Hf3).
  set (a3 := if Npy.less_at less v a2 pm pl then swap a2 pm pl else a2) in *.
  assert (a3 !! pr = Some z2) as Hz3 by (rewrite Hf3; [done|lia..]).
  exists x3, y3, z2. split_and!; try done.
  - assert (y1 < length v)%nat as Hvy1.
    { destruct Hxy1 as [[_ ->]|[_ ->]]; by eapply valid_lookup. }
    assert (le x1 z2) as Hxz.
    { destruct Hyz2 as [[-> ->]|[-> ->]]; [by eapply le_trans|done]. }
    by destruct Hxy3 as [[-> ->]|[-> ->]].
  - intros k Hk. rewrite Hf3, Hf2, Hf1 by lia. done.
Qed.

Lemma scan_up_spec fuel vp (a : list nat) pi q y :
  (pi < q)%nat → (q ≤ fuel + pi)%nat → a !! q = Some y → lv y vp = false →
  (pi < scan_up fuel vp a pi ≤ q)%nat
  ∧ (∀ k x, (pi < k < scan_up fuel vp a pi)%nat → a !! k = Some x → lv x vp = true)
  ∧ ∃ x, a !! scan_up fuel vp a pi = Some x ∧ lv x vp = false.
Proof.
  intros Hq Hfuel Hy Hstop. revert pi Hq Hfuel.
  induction fuel as [|fuel IH]; intros pi Hq Hfuel; [lia|]. simpl.
  destruct (lookup_lt_is_Some_2 a (S pi)) as [x Hx].
  { apply lookup_lt_Some in Hy. lia. }
  rewrite Hx. destruct (lv x vp) eqn:Hlt.
  - assert (S pi ≠ q) by (intros ?; subst q; congruence).
    destruct (IH (S pi)) as (Hr & Hbelow & Hat); [lia..|].
    split; [lia|]. split; [|done].
    intros k x' Hk Hx'. destruct (decide (k = S pi)) as [->|]; [congruence|].
    apply (Hbelow k); [lia|done].
  - split; [lia|]. split; [intros; lia|]. eauto.
Qed.

Lemma scan_down_spec vp (a : list nat) pj q y :
  (q < pj)%nat → (pj ≤ length a)%nat → a !! q = Some y → lv vp y = false →
  (q ≤ scan_down vp a pj < pj)%nat
  ∧ (∀ k x, (scan_down vp a pj < k < pj)%nat → a !! k = Some x → lv vp x = true)
  ∧ ∃ x, a !! scan_down vp a pj = Some x ∧ lv vp x = false.
Proof.
  intros Hq Hlen Hy Hstop. revert Hq Hlen.
  induction pj as [|pj IH]; intros Hq Hlen; [lia|]. simpl.
  destruct (lookup_lt_is_Some_2 a pj ltac:(lia)) as [x Hx].
  rewrite Hx. destruct (lv vp x) eqn:Hlt.
  - assert (pj ≠ q) by (intros ?; subst q; congruence).
    destruct IH as (Hr & Habove & Hat); [lia..|].
    split; [lia|]. split; [|done].
    intros k x' Hk Hx'. destruct (decide (k = pj)) as [->|]; [congruence|].
    apply (Habove k); [lia|done].
  - split; [lia|]. split; [intros; lia|]. eauto.
Qed.

Lemma partition_loop_spec fuel vp (a : list nat) pl pr p pi pj :
  (pl ≤ pi)%nat → (pi < pj)%nat → (pj ≤ p)%nat → (p ≤ pr)%nat → (pr < length a)%nat →
  (pj ≤ fuel + pi)%nat →
  a !! p = Some vp →
  elems a pl pi (λ x, le x vp) → elems a pj pr (λ x, le vp x) →
  (pi < (partition_loop fuel vp a pi pj).2 ≤ p)%nat
  ∧ (partition_loop fuel vp a pi pj).1 !! p = Some vp
  ∧ frame a (partition_loop fuel vp a pi pj).1 pl pr
  ∧ elems (partition_loop fuel vp a pi pj).1 pl ((partition_loop fuel vp a pi pj).2 - 1)
          (λ x, le x vp)
  ∧ elems (partition_loop fuel vp a pi pj).1 ((partition_loop fuel vp a pi pj).2 + 1) pr
          (λ x, le vp x)
  ∧ ∃ x, (partition_loop fuel vp a pi pj).1 !! (partition_loop fuel vp a pi pj).2 = Some x
         ∧ le vp x.
Proof.
  revert a pi pj.
  induction fuel as [|fuel IH]; intros a pi pj Hpl Hpi Hpj Hp Hpr Hfuel Hvp Hlo Hhi.
  { lia. }
  destruct (lookup_lt_is_Some_2 a pj ltac:(lia)) as [yj Hyj].
  destruct (lookup_lt_is_Some_2 a pi ltac:(lia)) as [yi Hyi].
  destruct (scan_up_spec (length a) vp a pi pj yj) as (Hup & Hbelow & (xu & Hxu & Hxu'));
    [lia|lia|done|exact (Hhi pj yj ltac:(lia) Hyj)|].
  destruct (scan_down_spec vp a pj pi yi) as (Hdn & Habove & (xd & Hxd & Hxd'));
    [lia|lia|done|exact (Hlo pi yi ltac:(lia) Hyi)|].
  cbn [Npy.partition_loop].
  set (pi' := scan_up (length a) vp a pi) in *.
  set (pj' := scan_down vp a pj) in *.
  assert (elems a pl (pi' - 1) (λ x, le x vp)) as Hlo'.
  { intros k x Hk Hx. destruct (decide (k ≤ pi)%nat); [exact (Hlo k x ltac:(lia) Hx)|].
    apply lt_le, (Hbelow k); [lia|done]. }
  assert (elems a (pj' + 1) pr (λ x, le vp x)) as Hhi'.
  { intros k x Hk Hx. destruct (decide (pj ≤ k)%nat); [exact (Hhi k x ltac:(lia) Hx)|].
    apply lt_le, (Habove k); [lia|done]. }
  case_bool_decide as Hcross.
  - cbn [fst snd]. split_and!; try done; try lia.
    + intros k x Hk Hx. apply (Hhi' k); [lia|done].
    + eauto.
  - apply not_le in Hcross.
    set (a1 := swap a pi' pj').
    assert (length a1 = length a) as Hlen1 by apply swap_length.
    assert (frame a a1 pl pr) as Hf1 by (apply swap_frame; lia).
    destruct (IH a1 pi' pj') as (Hr & Hvp' & Hf & Hlo2 & Hhi2 & Hat); try lia.
    + unfold a1. rewrite swap_lookup_ne by lia. done.
    + intros k x Hk Hx. destruct (decide (k = pi')) as [->|].
      * unfold a1 in Hx. rewrite (swap_lookup_l a pi' pj' xd) in Hx by (done || lia).
        by injection Hx as <-.
      * unfold a1 in Hx. rewrite swap_lookup_ne in Hx by lia.
        apply (Hlo' k); [lia|done].
    + intros k x Hk Hx. destruct (decide (k = pj')) as [->|].
      * unfold a1 in Hx.
        rewrite (swap_lookup_r a pi' pj' xu) in Hx by (done || lia).
        by injection Hx as <-.
      * unfold a1 in Hx. rewrite swap_lookup_ne in Hx by lia.
        apply (Hhi' k); [lia|done].
    + split_and!; try done; try lia. by eapply frame_trans.
Qed.

(** One partitioning step: the pivot ends at the returned position, no
    entry before it is above the pivot and no entry after it is below. *)
Lemma partition_spec (a : list nat) pl pr :
  (pl + 1 < pr)%nat → (pr < length a)%nat → valid a →
  (pl < (partition a pl pr).2 < pr)%nat
  ∧ frame a (partition a pl pr).1 pl pr
  ∧ ∃ vp, (partition a pl pr).1 !! (partition a pl pr).2 = Some vp
      ∧ elems (partition a pl pr).1 pl ((partition a pl pr).2 - 1) (λ x, le x vp)
      ∧ elems (partition a pl pr).1 ((partition a pl pr).2 + 1) pr (λ x, le vp x).
Proof.
  intros Hrange Hpr Hv. unfold Npy.partition.
  set (pm := (pl + (pr - pl) / 2)%nat).
  assert (pl < pm ∧ pm < pr)%nat as [Hpm1 Hpm2].
  { unfold pm. pose proof (Nat.div_lt (pr - pl) 2 ltac:(lia) ltac:(lia)).
    pose proof (Nat.div_le_lower_bound (pr - pl) 2 1 ltac:(lia) ltac:(lia)). lia. }
  destruct (median3_spec a pl pm pr) as (x & y & z & Hx & Hy & Hz & Hxy & Hyz & Hf0);
    [done..|].
  pose proof (median3_length less v a pl pm pr) as Hlen1.
  set (a1 := median3 a pl pm pr) in *.
  rewrite Hy.
  set (a2 := swap a1 pm (pr - 1)).
  assert (length a2 = length a) as Hlen2 by (unfold a2; by rewrite swap_length).
  assert (a2 !! (pr - 1)%nat = Some y) as Hp2.
  { apply swap_lookup_r; [done|lia]. }
  assert (a2 !! pl = Some x) as Hx2.
  { unfold a2. rewrite swap_lookup_ne by lia. done. }
  assert (a2 !! pr = Some z) as Hz2.
  { unfold a2. rewrite swap_lookup_ne by lia. done. }
  destruct (partition_loop_spec (length a2) y a2 pl pr (pr - 1) pl (pr - 1))
    as (Hr & Hp3 & Hf3 & Hlo & Hhi & (x' & Hx' & Hx'le)); try lia; try done.
  { intros k w Hk Hw. replace k with pl in Hw by lia. congruence. }
  { intros k w Hk Hw. destruct (decide (k = pr)) as [->|].
    - congruence.
    - replace k with (pr - 1)%nat in Hw by lia.
      assert (w = y) as -> by congruence. apply le_refl. }
  destruct (partition_loop (length a2) y a2 pl (pr - 1)) as [a3 r]. cbn [fst snd] in *.
  pose proof (lookup_lt_Some _ _ _ Hx') as Hr3.
  pose proof (lookup_lt_Some _ _ _ Hp3) as Hpr3.
  split; [lia|]. split.
  { intros k Hk. rewrite swap_lookup_ne by lia.
    rewrite Hf3 by lia. unfold a2. rewrite swap_lookup_ne by lia. by apply Hf0. }
  exists y. split_and!.
  - by apply swap_lookup_l.
  - intros k w Hk Hw. rewrite swap_lookup_ne in Hw by lia.
    exact (Hlo k w ltac:(lia) Hw).
  - intros k w Hk Hw. destruct (decide (k = (pr - 1)%nat)) as [->|].
    + rewrite (swap_lookup_r a3 r (pr - 1) x') in Hw by done. congruence.
    + rewrite swap_lookup_ne in Hw by lia. exact (Hhi k w ltac:(lia) Hw).
Qed.

(** *** Heap sort of a range *)

Local Abbreviation slot := Npy.slot.
Local Abbreviation sift := (Npy.sift less v).
Local Abbreviation heapify := (Npy.heapify less v).
Local Abbreviation extract := (Npy.extract less v).
Local Abbreviation aheapsort := (Npy.aheapsort less v).

(** The child that the sift-down loop compares with: no child of [i] is
    above it. *)
Lemma larger_child base n (a : list nat) i :
  (1 ≤ i)%nat → (i + i ≤ n)%nat → (slot base n < length a)%nat →
  ∃ j' x,
    (if bool_decide (i + i < n)%nat
        && Npy.less_at less v a (slot base (i + i)) (slot base (i + i + 1))
     then (i + i + 1)%nat else (i + i)%nat) = j'
    ∧ (i + i ≤ j' ≤ n)%nat ∧ (j' / 2)%nat = i
    ∧ a !! slot base j' = Some x
    ∧ ∀ c w, (2 ≤ c ≤ n)%nat → (c / 2)%nat = i → a !! slot base c = Some w → le w x.
Proof.
  intros Hi Hj Hn. unfold Npy.slot in *.
  destruct (lookup_lt_is_Some_2 a (base + (i + i) - 1) ltac:(hlia)) as [xj Hxj].
  case_bool_decide as Hlt; cbn [andb].
  - destruct (lookup_lt_is_Some_2 a (base + (i + i + 1) - 1) ltac:(hlia)) as [xk Hxk].
    unfold Npy.less_at. rewrite Hxj, Hxk. destruct (lv xj xk) eqn:Hcmp.
    + exists (i + i + 1)%nat, xk. split_and!; try done; try hlia.
      intros c w Hc Hpar Hw.
      assert (c = (i + i)%nat ∨ c = (i + i + 1)%nat) as [->| ->] by hlia.
      * assert (w = xj) as -> by congruence. by apply lt_le.
      * assert (w = xk) as -> by congruence. apply le_refl.
    + exists (i + i)%nat, xj. split_and!; try done; try hlia.
      intros c w Hc Hpar Hw.
      assert (c = (i + i)%nat ∨ c = (i + i + 1)%nat) as [->| ->] by hlia.
      * assert (w = xj) as -> by congruence. apply le_refl.
      * by assert (w = xk) as -> by congruence.
  - exists (i + i)%nat, xj. split_and!; try done; try hlia.
    intros c w Hc Hpar Hw.
    assert (c = (i + i)%nat) as -> by hlia.
    assert (w = xj) as -> by congruence. apply le_refl.
Qed.

(** Filling the hole at slot [i] with [tmp] gives a heap when [tmp] is not
    below the children of [i] and not above its parent. *)
Lemma heap_fill base n lo tmp (a : list nat) i :
  (1 ≤ i)%nat → (i ≤ n)%nat → (slot base n < length a)%nat →
  (∀ c x y, (2 ≤ c ≤ n)%nat → (lo ≤ c / 2)%nat → (c / 2)%nat ≠ i →
     a !! slot base c = Some x → a !! slot base (c / 2) = Some y → le x y) →
  ((2 ≤ i)%nat → (lo ≤ i / 2)%nat →
     ∃ y, a !! slot base (i / 2) = Some y ∧ le tmp y) →
  (∀ c w, (2 ≤ c ≤ n)%nat → (c / 2)%nat = i → a !! slot base c = Some w → le w tmp) →
  heap (<[slot base i := tmp]> a) base lo n.
Proof.
  intros Hi Hin Hn H1 H2 H3 c x y Hc Hlo Hx Hy. unfold Npy.slot in *.
  destruct (decide ((c / 2)%nat = i)) as [Hpar|Hpar].
  - rewrite list_lookup_insert_ne in Hx by hlia.
    rewrite Hpar, list_lookup_insert_eq in Hy by hlia.
    injection Hy as <-. by eapply H3.
  - rewrite list_lookup_insert_ne in Hy by hlia.
    destruct (decide (c = i)) as [->|Hci].
    + rewrite list_lookup_insert_eq in Hx by hlia. injection Hx as <-.
      destruct H2 as (y' & Hy' & Hle); [hlia..|]. congruence.
    + rewrite list_lookup_insert_ne in Hx by hlia. by eapply H1.
Qed.

(** The sift-down loop restores the heap order from slot [lo] on. *)
Lemma sift_heap fuel base n lo tmp (a : list nat) i :
  (1 ≤ i)%nat → (lo ≤ i)%nat → (i ≤ n)%nat → (slot base n < length a)%nat →
  (n < fuel + (i + i))%nat → valid a →
  (∀ c x y, (2 ≤ c ≤ n)%nat → (lo ≤ c / 2)%nat → (c / 2)%nat ≠ i →
     a !! slot base c = Some x → a !! slot base (c / 2) = Some y → le x y) →
  ((2 ≤ i)%nat → (lo ≤ i / 2)%nat →
     ∃ y, a !! slot base (i / 2) = Some y ∧ le tmp y
       ∧ ∀ c w, (2 ≤ c ≤ n)%nat → (c / 2)%nat = i → a !! slot base c = Some w → le w y) →
  heap (sift fuel base n tmp a i (i + i)) base lo n.
Proof.
  revert a i. induction fuel as [|fuel IH]; intros a i Hi Hlo Hin Hn Hfuel Hv H1 H2.
  { cbn [Npy.sift]. apply heap_fill; try done.
    - intros ??. destruct H2 as (y & ? & ? & _); eauto.
    - intros c w Hc Hpar. hlia. }
  cbn [Npy.sift]. case_bool_decide as Hj.
  2:{ apply heap_fill; try done.
      - intros ??. destruct H2 as (y & ? & ? & _); eauto.
      - intros c w Hc Hpar. hlia. }
  destruct (larger_child base n a i Hi Hj Hn) as (j' & x & -> & Hj' & Hpar & Hx & Hmax).
  rewrite Hx. destruct (lv tmp x) eqn:Hcmp.
  2:{ apply heap_fill; try done.
      - intros ??. destruct H2 as (y & ? & ? & _); eauto.
      - intros c w Hc Hc' Hw. apply (le_trans w x tmp).
        + by eapply valid_lookup.
        + by eapply Hmax.
        + done. }
  assert (slot base i < length a)%nat as Hsi by (unfold Npy.slot in *; hlia).
  apply IH; try hlia.
  - by rewrite length_insert.
  - apply Forall_insert; [done|]. by eapply valid_lookup.
  - intros c w y Hc Hclo Hcpar Hw Hy. unfold Npy.slot in *.
    destruct (decide ((c / 2)%nat = i)) as [Hci|Hci].
    + rewrite list_lookup_insert_ne in Hw by hlia.
      rewrite Hci, list_lookup_insert_eq in Hy by hlia. injection Hy as <-.
      by eapply Hmax.
    + rewrite list_lookup_insert_ne in Hy by hlia.
      destruct (decide (c = i)) as [->|Hne].
      * rewrite list_lookup_insert_eq in Hw by hlia. injection Hw as <-.
        destruct H2 as (y' & Hy' & _ & Hch); [hlia..|].
        assert (y = y') as -> by congruence.
        apply (Hch j'); [hlia|done|done].
      * rewrite list_lookup_insert_ne in Hw by hlia. by eapply H1.
  - intros _ _. exists x. unfold Npy.slot in *. split_and!.
    + rewrite Hpar. apply list_lookup_insert_eq. hlia.
    + by apply lt_le.
    + intros c w Hc Hcpar Hw.
      rewrite list_lookup_insert_ne in Hw by hlia.
      apply (H1 c w x); rewrite ?Hcpar; try done; hlia.
Qed.

Lemma sift_frame fuel base n tmp (a : list nat) i j :
  (1 ≤ i)%nat → (i ≤ n)%nat → (i ≤ j)%nat →
  frame a (sift fuel base n tmp a i j) (slot base i) (slot base n).
Proof.
  revert a i j. induction fuel as [|fuel IH]; intros a i j Hi Hin Hij k Hk;
    cbn [Npy.sift]; unfold Npy.slot in *.
  { apply list_lookup_insert_ne. hlia. }
  case_bool_decide as Hj; [|apply list_lookup_insert_ne; hlia].
  set (j' := if _ && _ then _ else _).
  assert (j ≤ j' ≤ n)%nat as Hj'.
  { unfold j'. destruct (_ && _) eqn:E; [|hlia].
    apply andb_true_iff in E as [E _]. apply bool_decide_eq_true in E. hlia. }
  destruct (a !! (base + j' - 1)%nat) as [x|]; [|apply list_lookup_insert_ne; hlia].
  destruct (lv tmp x); [|apply list_lookup_insert_ne; hlia].
  rewrite IH by (unfold Npy.slot; hlia). apply list_lookup_insert_ne. hlia.
Qed.

(** The loop writes [tmp] and entries of the heap, nothing else. *)
Lemma sift_elems fuel base n tmp (a : list nat) i j (P : nat → Prop) :
  (1 ≤ i)%nat → (i ≤ n)%nat → (i ≤ j)%nat → P tmp →
  elems a (slot base 1) (slot base n) P →
  elems (sift fuel base n tmp a i j) (slot base 1) (slot base n) P.
Proof.
  intros Hi Hin Hij Htmp. revert a i j Hi Hin Hij.
  assert (∀ (a : list nat) i x, P x → elems a (slot base 1) (slot base n) P →
            elems (<[slot base i := x]> a) (slot base 1) (slot base n) P) as Hins.
  { intros a i x Hx Ha k w Hk Hw.
    destruct (decide (k = slot base i)) as [->|Hne].
    - apply list_lookup_insert_Some in Hw as [(_ & <- & _)|(? & _)]; done.
    - rewrite list_lookup_insert_ne in Hw by done. by eapply Ha. }
  induction fuel as [|fuel IH]; intros a i j Hi Hin Hij Ha; cbn [Npy.sift].
  { by apply Hins. }
  case_bool_decide as Hj; [|by apply Hins].
  set (j' := if _ && _ then _ else _).
  assert (j ≤ j' ≤ n)%nat as Hj'.
  { unfold j'. destruct (_ && _) eqn:E; [|hlia].
    apply andb_true_iff in E as [E _]. apply bool_decide_eq_true in E. hlia. }
  destruct (a !! slot base j') as [x|] eqn:Hx; [|by apply Hins].
  destruct (lv tmp x); [|by apply Hins].
  apply IH; try hlia. apply Hins; [|done].
  apply (Ha (slot base j')); [unfold Npy.slot; hlia|done].
Qed.

Lemma sift_length fuel base n tmp (a : list nat) i j :
  (slot base i < length a)%nat → length (sift fuel base n tmp a i j) = length a.
Proof.
  intros Hi. rewrite (Permutation_length (sift_Permutation less v _ _ _ _ _ _ _ Hi)).
  apply length_insert.
Qed.

Lemma sift_valid fuel base n tmp (a : list nat) i j :
  (slot base i < length a)%nat → (tmp < length v)%nat → valid a →
  valid (sift fuel base n tmp a i j).
Proof.
  intros Hi Htmp Hv. unfold Range.valid.
  rewrite (sift_Permutation less v _ _ _ _ _ _ _ Hi). by apply Forall_insert.
Qed.

(** Heap construction. *)
Lemma heapify_spec base n (a : list nat) l :
  (l ≤ n)%nat → (slot base n < length a)%nat → valid a →
  heap a base (l + 1) n →
  heap (heapify base n a l) base 1 n
  ∧ frame a (heapify base n a l) (slot base 1) (slot base n).
Proof.
  revert a. induction l as [|l IH]; intros a Hl Hn Hv Hh.
  { split; [done|apply frame_refl]. }
  cbn [Npy.heapify].
  assert (slot base (S l) < length a)%nat as Hsl by (unfold Npy.slot in *; hlia).
  destruct (lookup_lt_is_Some_2 a _ Hsl) as [tmp Htmp]. rewrite Htmp.
  set (a1 := sift n base n tmp a (S l) (S l + S l)).
  assert (heap a1 base (S l) n) as Hh1.
  { apply sift_heap; try done; try hlia.
    intros c x y Hc Hlo Hpar. apply Hh; hlia. }
  destruct (IH a1) as [Hheap Hf]; try hlia.
  - unfold a1. by rewrite sift_length.
  - apply sift_valid; [done| |done]. by eapply valid_lookup.
  - by rewrite Nat.add_1_r.
  - split; [done|]. eapply frame_trans; [|exact Hf].
    eapply frame_mono; [| |apply (sift_frame n base n tmp a (S l) (S l + S l))];
      unfold Npy.slot; hlia.
Qed.

(** The root of a heap is not below any entry. *)
Lemma heap_root_max base n (a : list nat) top :
  (slot base n < length a)%nat → valid a → heap a base 1 n →
  a !! slot base 1 = Some top →
  ∀ k x, (1 ≤ k ≤ n)%nat → a !! slot base k = Some x → le x top.
Proof.
  intros Hn Hv Hh Htop k. induction (lt_wf k) as [k _ IH]. intros x Hk Hx.
  destruct (decide (k = 1%nat)) as [->|Hk1].
  { assert (x = top) as -> by congruence. apply le_refl. }
  assert (1 ≤ k / 2 < k)%nat as Hpar by hlia.
  destruct (lookup_lt_is_Some_2 a (slot base (k / 2))) as [y Hy].
  { unfold Npy.slot in *. hlia. }
  apply (le_trans x y top).
  - by eapply valid_lookup.
  - apply (Hh k x y); [hlia|hlia|done|done].
  - apply (IH (k / 2)%nat); [hlia|hlia|done].
Qed.

(** Extraction: the heap shrinks from the right and the sorted part
    grows to the left. *)
Lemma extract_spec base N (a : list nat) n :
  (n ≤ N)%nat → (slot base N < length a)%nat → valid a →
  heap a base 1 n →
  sorted a (slot base (n + 1)) (slot base N) →
  (∀ k m x y, (1 ≤ k ≤ n)%nat → (n < m ≤ N)%nat →
     a !! slot base k = Some x → a !! slot base m = Some y → le x y) →
  sorted (extract base a n) (slot base 1) (slot base N)
  ∧ frame a (extract base a n) (slot base 1) (slot base N).
Proof.
  revert a. induction n as [|n IH]; intros a HnN HN Hv Hh Hs Hdom.
  { split; [done|apply frame_refl]. }
  cbn [Npy.extract]. case_bool_decide as Hn1.
  2:{ split; [|apply frame_refl]. assert (n = 0%nat) as -> by lia.
      intros i j x y Hi Hij Hj Hx Hy. unfold Npy.slot in *.
      destruct (decide (i = base)) as [->|Hne].
      - apply (Hdom 1%nat (j - base + 1)%nat); [lia|lia|..].
        + by replace (base + 1 - 1)%nat with base by lia.
        + by replace (base + (j - base + 1) - 1)%nat with j by lia.
      - apply (Hs i j); [simpl; lia|done..]. }
  assert (slot base (S n) < length a)%nat as Hsn by (unfold Npy.slot in *; lia).
  assert (slot base 1 < length a)%nat as Hs1 by (unfold Npy.slot in *; lia).
  destruct (lookup_lt_is_Some_2 a _ Hsn) as [tmp Htmp].
  destruct (lookup_lt_is_Some_2 a _ Hs1) as [top Htop].
  rewrite Htmp, Htop.
  set (a1 := <[slot base (S n) := top]> a).
  set (a2 := sift n base n tmp a1 1 2).
  assert (length a1 = length a) as Hlen1 by apply length_insert.
  assert (valid a1) as Hv1.
  { apply Forall_insert; [done|]. exact (valid_lookup a _ top Hv Htop). }
  assert (∀ k, (1 ≤ k ≤ n)%nat → a1 !! slot base k = a !! slot base k) as Hlow.
  { intros k Hk. apply list_lookup_insert_ne. unfold Npy.slot. lia. }
  assert (∀ k x, (1 ≤ k ≤ S n)%nat → a !! slot base k = Some x → le x top) as Hmax.
  { intros k x Hk Hx. by apply (heap_root_max base (S n) a top Hsn Hv Hh Htop k). }
  assert (frame a1 a2 (slot base 1) (slot base n)) as Hf12.
  { apply (sift_frame n base n tmp a1 1 2); lia. }
  assert (length a2 = length a) as Hlen2.
  { unfold a2. rewrite sift_length; [done|]. unfold Npy.slot in *. lia. }
  destruct (IH a2) as [Hsorted Hf]; try lia.
  - apply sift_valid; [unfold Npy.slot in *; lia| |done].
    exact (valid_lookup a _ tmp Hv Htmp).
  - apply (sift_heap n base n 1 tmp a1 1); try done; try lia.
    + unfold Npy.slot in *. lia.
    + intros c x y Hc Hlo Hpar. rewrite !Hlow by hlia. apply Hh; hlia.
  - intros i j x y Hi Hij Hj Hx Hy.
    rewrite Hf12 in Hx by (unfold Npy.slot in *; lia).
    rewrite Hf12 in Hy by (unfold Npy.slot in *; lia).
    unfold a1 in Hy. rewrite list_lookup_insert_ne in Hy by (unfold Npy.slot in *; lia).
    destruct (decide (i = slot base (S n))) as [->|Hne].
    + unfold a1 in Hx. rewrite list_lookup_insert_eq in Hx by done. injection Hx as <-.
      apply (Hdom 1%nat (j - base + 1)%nat); [lia|unfold Npy.slot in *; lia|done|].
      unfold Npy.slot in *. by replace (base + (j - base + 1) - 1)%nat with j by lia.
    + unfold a1 in Hx.
      rewrite list_lookup_insert_ne in Hx by done.
      apply (Hs i j); [unfold Npy.slot in *; lia|done..].
  - intros k m x y Hk Hm Hx Hy.
    assert (le x top ∧ ∀ m' y', (S n < m' ≤ N)%nat → a !! slot base m' = Some y' → le x y')
      as [Hxtop Hxtail].
    { apply (sift_elems n base n tmp a1 1 2
               (λ w, le w top ∧ ∀ m' y', (S n < m' ≤ N)%nat →
                                  a !! slot base m' = Some y' → le w y')
               ltac:(lia) ltac:(lia) ltac:(lia)) with (k := slot base k);
        [| |unfold Npy.slot; lia|exact Hx].
      - split; [apply (Hmax (S n)); [lia|done]|].
        intros m' y' Hm' Hy'. apply (Hdom (S n) m'); [lia|lia|done..].
      - intros p w Hp Hw.
        assert (p = slot base (p - base + 1)) as Hps by (unfold Npy.slot in *; lia).
        rewrite Hps, Hlow in Hw by (unfold Npy.slot in *; lia).
        split; [apply (Hmax (p - base + 1)%nat); [unfold Npy.slot in *; lia|done]|].
        intros m' y' Hm' Hy'.
        apply (Hdom (p - base + 1)%nat m'); [unfold Npy.slot in *; lia|lia|done..]. }
    rewrite Hf12 in Hy by (unfold Npy.slot in *; lia).
    destruct (decide (m = S n)) as [->|Hne].
    + unfold a1 in Hy. rewrite list_lookup_insert_eq in Hy by done. by injection Hy as <-.
    + unfold a1 in Hy. rewrite list_lookup_insert_ne in Hy by (unfold Npy.slot; lia).
      apply (Hxtail m); [lia|done].
  - split; [done|]. intros p Hp. rewrite Hf by done.
    rewrite Hf12 by (unfold Npy.slot in *; lia).
    apply list_lookup_insert_ne. unfold Npy.slot in *. lia.
Qed.

(** Heap sort puts a range in order and leaves the rest in place. *)
Lemma aheapsort_spec (a : list nat) base n :
  (1 ≤ n)%nat → (base + n ≤ length a)%nat → valid a →
  sorted (aheapsort a base n) base (base + n - 1)
  ∧ frame a (aheapsort a base n) base (base + n - 1).
Proof.
  intros Hn Hlen Hv. unfold Npy.aheapsort.
  assert (slot base n < length a)%nat as Hsn by (unfold Npy.slot; lia).
  destruct (heapify_spec base n a (n / 2)) as [Hh Hf1]; try done; try hlia.
  { intros c x y Hc Hlo. hlia. }
  set (a1 := heapify base n a (n / 2)) in *.
  assert (a1 ≡ₚ a) as Hp1 by apply heapify_Permutation.
  destruct (extract_spec base n a1 n) as [Hs Hf2]; try done.
  - by rewrite Hp1.
  - by eapply valid_Permutation.
  - intros i j x y Hi Hij Hj. unfold Npy.slot in *. lia.
  - intros k m x y Hk Hm. lia.
  - unfold Npy.slot in *. replace (base + 1 - 1)%nat with base in * by lia.
    split; [done|]. by eapply frame_trans.
Qed.

(** *** The main loop *)

Local Abbreviation quicksort_range := (Npy.quicksort_range less v).
Local Abbreviation aquicksort := (Npy.aquicksort less v).

(** The two sides of the pivot, sorted one after the other in either
    order, make the range sorted. *)
Lemma sorted_sides (a1 a2 a3 : list nat) pl p pr vp :
  NoDup a1 → a2 ≡ₚ a1 → a3 ≡ₚ a2 →
  a1 !! p = Some vp → (vp < length v)%nat →
  elems a1 pl (p - 1) (λ x, le x vp) → elems a1 (p + 1) pr (λ x, le vp x) →
  (frame a1 a2 pl (p - 1) ∧ sorted a2 pl (p - 1)
   ∧ frame a2 a3 (p + 1) pr ∧ sorted a3 (p + 1) pr)
  ∨ (frame a1 a2 (p + 1) pr ∧ sorted a2 (p + 1) pr
     ∧ frame a2 a3 pl (p - 1) ∧ sorted a3 pl (p - 1)) →
  (pl < p)%nat → (p < pr)%nat →
  sorted a3 pl pr ∧ frame a1 a3 pl pr.
Proof.
  intros Hnd H12 H23 Hp Hvp Hlo Hhi Hsides Hplp Hppr.
  assert (NoDup a2) as Hnd2 by (by rewrite H12).
  destruct Hsides as [(Hf2 & Hs2 & Hf3 & Hs3)|(Hf2 & Hs2 & Hf3 & Hs3)].
  - split.
    + apply (sorted_join a3 pl p pr vp); try done.
      * rewrite Hf3, Hf2 by lia. done.
      * eapply sorted_frame; [exact Hf3|lia|done].
      * eapply elems_frame; [exact Hf3|lia|].
        exact (elems_rearranged a1 a2 _ _ _ Hnd H12 Hf2 Hlo).
      * apply (elems_rearranged a2 a3 _ _ _ Hnd2 H23 Hf3).
        eapply elems_frame; [exact Hf2|lia|done].
    + intros k Hk. rewrite Hf3, Hf2 by lia. done.
  - split.
    + apply (sorted_join a3 pl p pr vp); try done.
      * rewrite Hf3, Hf2 by lia. done.
      * eapply sorted_frame; [exact Hf3|lia|done].
      * apply (elems_rearranged a2 a3 _ _ _ Hnd2 H23 Hf3).
        eapply elems_frame; [exact Hf2|lia|done].
      * eapply elems_frame; [exact Hf3|lia|].
        exact (elems_rearranged a1 a2 _ _ _ Hnd H12 Hf2 Hhi).
    + intros k Hk. rewrite Hf3, Hf2 by lia. done.
Qed.

(** The main loop puts its range in order and leaves the rest in place,
    whether a side is finished by insertion sort or by heap sort. *)
Lemma quicksort_range_spec fuel cdepth (a : list nat) pl pr :
  (pl ≤ pr)%nat → (pr < length a)%nat → (pr - pl < fuel)%nat → valid a → NoDup a →
  sorted (quicksort_range fuel cdepth a pl pr) pl pr
  ∧ frame a (quicksort_range fuel cdepth a pl pr) pl pr.
Proof.
  revert cdepth a pl pr.
  induction fuel as [|fuel IH]; intros cdepth a pl pr Hpl Hpr Hfuel Hv Hnd; [lia|].
  cbn [Npy.quicksort_range]. case_bool_decide as Hbig.
  2:{ by apply insertion_sort_spec. }
  unfold Npy.SMALL_QUICKSORT in Hbig.
  destruct (partition_spec a pl pr) as (Hpi & Hf1 & vp & Hvp & Hlo & Hhi);
    [lia|done|done|].
  pose proof (partition_Permutation less v a pl pr) as Hp1.
  destruct (Npy.partition less v a pl pr) as [a1 pi]. cbn [fst snd] in *.
  assert (valid a1) as Hv1 by (by eapply valid_Permutation).
  assert (NoDup a1) as Hnd1 by (by rewrite Hp1).
  assert (length a1 = length a) as Hlen1 by (by rewrite Hp1).
  assert (∀ (a2 : list nat) lo hi,
            (lo ≤ hi)%nat → (hi < length a2)%nat → (hi - lo < fuel)%nat →
            valid a2 → NoDup a2 →
            sorted (if cdepth - 1 <? 0 then Npy.aheapsort less v a2 lo (hi - lo + 1)
                    else quicksort_range fuel (cdepth - 1) a2 lo hi) lo hi
            ∧ frame a2 (if cdepth - 1 <? 0 then Npy.aheapsort less v a2 lo (hi - lo + 1)
                        else quicksort_range fuel (cdepth - 1) a2 lo hi) lo hi
            ∧ (if cdepth - 1 <? 0 then Npy.aheapsort less v a2 lo (hi - lo + 1)
               else quicksort_range fuel (cdepth - 1) a2 lo hi) ≡ₚ a2) as Hpop.
  { intros a2 lo hi Hlo2 Hhi2 Hfuel2 Hv2 Hnd2. destruct (cdepth - 1 <? 0).
    - destruct (aheapsort_spec a2 lo (hi - lo + 1)) as [Hs Hf]; [lia|lia|done|].
      replace (lo + (hi - lo + 1) - 1)%nat with hi in * by lia.
      split_and!; try done. apply aheapsort_Permutation.
    - destruct (IH (cdepth - 1) a2 lo hi) as [Hs Hf]; try done.
      split_and!; try done. apply quicksort_range_Permutation. }
  assert (vp < length v)%nat as Hvpv by (by eapply valid_lookup).
  case_bool_decide as Hside.
  - set (a2 := quicksort_range fuel (cdepth - 1) a1 pl (pi - 1)).
    destruct (IH (cdepth - 1) a1 pl (pi - 1)%nat) as [Hs2 Hf2]; try done; try lia.
    assert (a2 ≡ₚ a1) as Hp2 by apply quicksort_range_Permutation.
    destruct (Hpop a2 (pi + 1)%nat pr) as (Hs3 & Hf3 & Hp3); try lia.
    { rewrite Hp2. lia. }
    { by eapply valid_Permutation. }
    { by rewrite Hp2. }
    destruct (sorted_sides a1 a2 _ pl pi pr vp Hnd1 Hp2 Hp3 Hvp Hvpv Hlo Hhi)
      as [Hs Hf]; [left; by split_and!|lia|lia|].
    split; [done|]. by eapply frame_trans.
  - set (a2 := quicksort_range fuel (cdepth - 1) a1 (pi + 1) pr).
    destruct (IH (cdepth - 1) a1 (pi + 1)%nat pr) as [Hs2 Hf2]; try done; try lia.
    assert (a2 ≡ₚ a1) as Hp2 by apply quicksort_range_Permutation.
    destruct (Hpop a2 pl (pi - 1)%nat) as (Hs3 & Hf3 & Hp3); try lia.
    { rewrite Hp2. lia. }
    { by eapply valid_Permutation. }
    { by rewrite Hp2. }
    destruct (sorted_sides a1 a2 _ pl pi pr vp Hnd1 Hp2 Hp3 Hvp Hvpv Hlo Hhi)
      as [Hs Hf]; [right; by split_and!|lia|lia|].
    split; [done|]. by eapply frame_trans.
Qed.

Lemma StronglySorted_lookup_2 {A} (R : relation A) (l : list A) :
  (∀ i j x y, (i < j)%nat → l !! i = Some x → l !! j = Some y → R x y) →
  StronglySorted R l.
Proof.
  induction l as [|z l IH]; intros H; constructor.
  - apply IH. intros i j x y Hij Hx Hy. apply (H (S i) (S j)); [lia|done..].
  - apply Forall_lookup. intros i y Hy. by apply (H 0%nat (S i)); [lia|..].
Qed.

(** The index sort orders any index array without repetitions. *)
Lemma aquicksort_StronglySorted (tosort : list nat) :
  valid tosort → NoDup tosort → StronglySorted le (aquicksort tosort).
Proof.
  intros Hv Hnd. destruct tosort as [|x0 tosort]; [constructor|].
  unfold Npy.aquicksort.
  destruct (quicksort_range_spec (S (length (x0 :: tosort)))
              (Npy.npy_get_msb (length (x0 :: tosort)) * 2) (x0 :: tosort)
              0 (length (x0 :: tosort) - 1)) as [Hs _];
    try done; cbn [length]; try lia.
  apply StronglySorted_lookup_2. intros i j x y Hij Hx Hy.
  apply (Hs i j); try done; try lia.
  apply lookup_lt_Some in Hy.
  rewrite (Permutation_length (quicksort_range_Permutation less v _ _ _ _ _)) in Hy.
  cbn [length] in *. lia.
Qed.

(** The index sort of a key array puts the keys in order. *)
Lemma argsort_StronglySorted : StronglySorted le (Npy.argsort less v).
Proof.
  apply aquicksort_StronglySorted; [|apply NoDup_seq].
  apply Forall_forall. intros i Hi%elem_of_seq. lia.
Qed.

End ArgsortSorted.

(** ** The clean table is in date order *)

Lemma ts_ltb_spec a b :
  ts_ltb a b = true
  ↔ ts_year a < ts_year b
    ∨ (ts_year a = ts_year b
       ∧ (ts_month a < ts_month b
          ∨ (ts_month a = ts_month b ∧ ts_day a < ts_day b))).
Proof.
  unfold ts_ltb.
  destruct (Z.ltb_spec (ts_year a) (ts_year b)), (Z.eqb_spec (ts_year a) (ts_year b)),
    (Z.ltb_spec (ts_month a) (ts_month b)), (Z.eqb_spec (ts_month a) (ts_month b)),
    (Z.ltb_spec (ts_day a) (ts_day b)); simpl; split; try done; lia.
Qed.

Lemma ts_ltb_trans a b c : ts_ltb a b = true → ts_ltb b c = true → ts_ltb a c = true.
Proof. rewrite !ts_ltb_spec. lia. Qed.

Lemma ts_ltb_negtrans a b c :
  ts_ltb a b = false → ts_ltb b c = false → ts_ltb a c = false.
Proof.
  rewrite <-!not_true_iff_false, !ts_ltb_spec. lia.
Qed.

Lemma date_ascending_trans : Transitive date_ascending.
Proof. intros a b c Hab Hbc. unfold date_ascending in *. by eapply ts_ltb_negtrans. Qed.

(** [sort_values] returns the rows in the order of their dates, however
    many there are. *)
Lemma sort_values_StronglySorted {A} (by_ : A → Timestamp) (df : list A) :
  StronglySorted date_ascending (by_ <$> sort_values by_ df).
Proof.
  apply Sorted_StronglySorted; [apply date_ascending_trans|].
  unfold sort_values. apply take_rows_Sorted.
  - rewrite argsort_Permutation, length_fmap.
    apply Forall_forall. intros i Hi%elem_of_seq. lia.
  - apply StronglySorted_Sorted.
    apply (argsort_StronglySorted ts_ltb (by_ <$> df)
             ts_ltb_irrefl ts_ltb_trans ts_ltb_negtrans).
Qed.

Lemma clean_of_StronglySorted df :
  StronglySorted date_ascending ((λ r : Clean, date r) <$> clean_of df).
Proof.
  rewrite (list_fmap_compose (λ r : Clean, signed r) (λ s : Signed, date s)).
  rewrite signed_clean_of. apply sort_values_StronglySorted.
Qed.

(** X13: the rows of the clean table are in ascending order of date: no
    row has a date before the date of a row above it, whatever the number
    of rows and whichever of insertion sort, partitioning and heap sort the
    index sort goes through. *)
Theorem clean_table_is_in_date_order raw :
  ∃ clean ms, main raw = Emitted clean ms
    ∧ StronglySorted date_ascending ((λ r : Clean, date r) <$> clean).
Proof.
  exists (clean_of (filtered raw)), (groupby_agg (clean_of (filtered raw))).
  split; [apply main_emits|]. apply clean_of_StronglySorted.
Qed.

(** ** A second run on the clean table *)








(** ** Texts: [strip], [title] and [lower] *)

Lemma ascii_cases (P : ascii → Prop) :
  (∀ b0 b1 b2 b3 b4 b5 b6 b7, P (Ascii b0 b1 b2 b3 b4 b5 b6 b7)) → ∀ c, P c.
Proof. intros H [b0 b1 b2 b3 b4 b5 b6 b7]. apply H. Qed.

Ltac each_char :=
  let c := fresh "c" in
  intros c; pattern c; apply ascii_cases;
  intros [] [] [] [] [] [] [] []; vm_compute; try done; auto.

Lemma isspace_lower : ∀ c, Py.isspace (Py.lower c) = Py.isspace c.
Proof. each_char. Qed.

Lemma lower_lower : ∀ c, Py.lower (Py.lower c) = Py.lower c.
Proof. each_char. Qed.





(** *** [rstrip], one character at a time *)

Lemma append_cons c (s t : string) : String c s +:+ t = String c (s +:+ t).
Proof. reflexivity. Qed.

Lemma append_assoc (s1 s2 s3 : string) : (s1 +:+ s2) +:+ s3 = s1 +:+ (s2 +:+ s3).
Proof.
  induction s1 as [|c s1 IH]; [done|]. by rewrite !append_cons, IH.
Qed.

Lemma rev_app_append (s t : string) : String.rev_app s t = String.rev_app s "" +:+ t.
Proof.
  revert t. induction s as [|c s IH]; intros t; [done|]. cbn [String.rev_app].
  rewrite (IH (String c t)), (IH (String c "")), append_assoc. done.
Qed.

(** [rstrip] reverses, strips on the left and reverses again; read from
    the left it is [rstrip_rec]. *)
Lemma rev_lstrip_rev_app (s acc : string) :
  String.rev_app (Py.lstrip (String.rev_app s acc)) ""
  = match rstrip_rec s with
    | EmptyString => String.rev_app (Py.lstrip acc) ""
    | String _ _ as r => String.rev_app acc "" +:+ r
    end.
Proof.
  revert acc. induction s as [|c s IH]; intros acc; [done|].
  cbn [String.rev_app rstrip_rec]. rewrite IH.
  destruct (rstrip_rec s) as [|d q].
  - cbn [Py.lstrip]. destruct (Py.isspace c); [done|].
    cbn [String.rev_app]. apply rev_app_append.
  - cbn [String.rev_app]. rewrite (rev_app_append acc), append_assoc. done.
Qed.

Lemma rstrip_rstrip_rec (s : string) : Py.rstrip s = rstrip_rec s.
Proof.
  unfold Py.rstrip, String.rev. rewrite rev_lstrip_rev_app.
  by destruct (rstrip_rec s).
Qed.

Lemma rstrip_cons c (s : string) :
  Py.rstrip (String c s)
  = match Py.rstrip s with
    | EmptyString => if Py.isspace c then "" else String c ""
    | String _ _ as r => String c r
    end.
Proof. by rewrite !rstrip_rstrip_rec. Qed.

Lemma rstrip_empty : Py.rstrip "" = "".
Proof. reflexivity. Qed.

Lemma rstrip_rstrip (s : string) : Py.rstrip (Py.rstrip s) = Py.rstrip s.
Proof.
  induction s as [|c s IH]; [done|]. rewrite rstrip_cons.
  destruct (Py.rstrip s) as [|d q] eqn:E.
  - destruct (Py.isspace c) eqn:Ec; [done|].
    by rewrite rstrip_cons, rstrip_empty, Ec.
  - by rewrite rstrip_cons, IH.
Qed.

Lemma starts_space_lstrip (s : string) : starts_space (Py.lstrip s) = false.
Proof.
  induction s as [|c s IH]; [done|]. simpl.
  by destruct (Py.isspace c) eqn:E; simpl.
Qed.

Lemma lstrip_id (s : string) : starts_space s = false → Py.lstrip s = s.
Proof. destruct s as [|c s]; simpl; [done|]. by intros ->. Qed.

Lemma starts_space_rstrip (s : string) :
  starts_space s = false → starts_space (Py.rstrip s) = false.
Proof.
  destruct s as [|c s]; [done|]. simpl. intros Hc. rewrite rstrip_cons.
  destruct (Py.rstrip s); simpl; by rewrite ?Hc.
Qed.

Lemma strip_id (s : string) :
  starts_space s = false → Py.rstrip s = s → Py.strip s = s.
Proof. intros H1 H2. unfold Py.strip. by rewrite lstrip_id, H2. Qed.

Lemma strip_strip (s : string) : Py.strip (Py.strip s) = Py.strip s.
Proof.
  apply strip_id.
  - apply starts_space_rstrip, starts_space_lstrip.
  - apply rstrip_rstrip.
Qed.

(** *** [lower] and [strip] *)

Lemma str_lower_lstrip (s : string) : Py.lstrip (str_lower s) = str_lower (Py.lstrip s).
Proof.
  induction s as [|c s IH]; [done|]. simpl. rewrite isspace_lower.
  by destruct (Py.isspace c).
Qed.

Lemma str_lower_rstrip (s : string) : Py.rstrip (str_lower s) = str_lower (Py.rstrip s).
Proof.
  induction s as [|c s IH]; [done|]. cbn [str_lower]. rewrite !rstrip_cons, IH.
  rewrite isspace_lower.
  destruct (Py.rstrip s); simpl; [by destruct (Py.isspace c)|done].
Qed.

Lemma str_lower_strip (s : string) : Py.strip (str_lower s) = str_lower (Py.strip s).
Proof. unfold Py.strip. by rewrite str_lower_lstrip, str_lower_rstrip. Qed.

Lemma str_lower_str_lower (s : string) : str_lower (str_lower s) = str_lower s.
Proof. induction s as [|c s IH]; simpl; [done|]. by rewrite lower_lower, IH. Qed.

(** X15: cleaning the column names (line 13) keeps their number and
    order, and a cleaned name is a fixed point: it has no blank at either
    end and no upper-case letter, so cleaning twice is cleaning once. *)
Theorem clean_columns_is_idempotent (columns : list string) :
  length (clean_columns columns) = length columns
  ∧ (∀ c, c ∈ clean_columns columns → Py.strip c = c ∧ str_lower c = c)
  ∧ clean_columns (clean_columns columns) = clean_columns columns.
Proof.
  assert (∀ c, Py.strip (str_lower (Py.strip c)) = str_lower (Py.strip c)) as Hs.
  { intros c. by rewrite str_lower_strip, strip_strip. }
  unfold clean_columns. split_and!.
  - apply length_fmap.
  - intros c (c0 & -> & _)%list_elem_of_fmap. split; [apply Hs|apply str_lower_str_lower].
  - rewrite <-list_fmap_compose. apply list_fmap_ext. intros _ c _. simpl.
    by rewrite Hs, str_lower_str_lower.
Qed.

(** *** [title] and [strip] *)







(** ** The months are blocks of the clean table *)


Lemma list_filter_all {A} (P : A → bool) (l : list A) :
  Forall (λ x, P x = true) l → List.filter P l = l.
Proof.
  induction 1 as [|x l Hx _ IH]; [done|]. cbn [List.filter]. by rewrite Hx, IH.
Qed.






